(* Verification of the reusable utilities of advent-of-code-2024
   (src/utils.rs): the arena trie with its arrangement counter
   (Trie::add_word, Trie::from_iter, Trie::count_all_word_arrangements),
   the round-robin shard helper shard_and_solve_concurrently, and the
   Position and Direction helpers; and of two of their callers, the towel
   designs of day 19 (src/day19/mod.rs) and the robot simulation of day 14
   (src/day14/mod.rs).

   Panics of the Rust code (out-of-range Vec/array indexing, unwrap of
   None, remainder by zero) are modelled as [None].  u64, usize and i32
   arithmetic is modelled with the wrap-around of release builds (a debug
   build panics on overflow instead). *)

From Stdlib Require Import Ascii String.
From Stdlib Require Import List ZArith Lia Permutation Bool Arith Sorted.
Import ListNotations.

Local Open Scope nat_scope.

(* ------------------------------------------------------------------ *)
(** * Rust primitives *)

Notation "'let*' x ':=' m 'in' f" :=
  (match m with Some x => f | None => None end)
  (at level 200, x name, m at level 100, f at level 200).

(** [v[k] = x] on a Vec or array; the caller checks the bound. *)
Fixpoint list_set {A} (l : list A) (k : nat) (x : A) : list A :=
  match l, k with
  | [], _ => []
  | _ :: l', O => x :: l'
  | y :: l', S k' => y :: list_set l' k' x
  end.

(** [v[k]]: panics out of range. *)
Definition vec_get {A} (l : list A) (k : nat) : option A := nth_error l k.

(** [v[k] = x]: panics out of range. *)
Definition vec_set {A} (l : list A) (k : nat) (x : A) : option (list A) :=
  if k <? length l then Some (list_set l k x) else None.

(** [a % b] on usize: panics when [b] is zero. *)
Definition usize_rem (a b : nat) : option nat :=
  if b =? 0 then None else Some (a mod b).

(** u64 addition, with the wrap-around of release builds. *)
Definition u64_modulus : Z := (2 ^ 64)%Z.
Definition u64_add (a b : Z) : Z := ((a + b) mod u64_modulus)%Z.

(* ------------------------------------------------------------------ *)
(** * The trie (src/utils.rs) *)

(** [trait TrieElement { fn index(&self) -> usize; }] *)
Class TrieElement (T : Type) := index : T -> nat.

(** Symbols that are their own index. *)
#[global] Instance TrieElement_nat : TrieElement nat := fun n => n.

(** [struct TrieEntry<const N> { entries: [Option<usize>; N], terminal: bool }] *)
Record TrieEntry := mkTrieEntry {
  entries : list (option nat);
  terminal : bool
}.

(** [TrieEntry::default()]: [entries: [None; N], terminal: false]. *)
Definition TrieEntry_default (N : nat) : TrieEntry :=
  {| entries := repeat None N; terminal := false |}.

(** [struct Trie<T, const N> { trie_entries: Vec<TrieEntry<N>>, .. }]; the
    [PhantomData<T>] field carries no data. *)
Definition Trie := list TrieEntry.

(** [Trie::default()]: [trie_entries: vec![TrieEntry::default()]]. *)
Definition Trie_default (N : nat) : Trie := [TrieEntry_default N].

Definition set_entry (e : TrieEntry) (c : nat) (x : option nat) : TrieEntry :=
  {| entries := list_set (entries e) c x; terminal := terminal e |}.

Definition set_terminal (e : TrieEntry) : TrieEntry :=
  {| entries := entries e; terminal := true |}.

Section AddWord.
Context {T : Type} `{TrieElement T}.
Variable N : nat.

(** One iteration of the [for c in word] loop of [add_word]:
<<
    let c_index = c.index();
    if self.trie_entries[last].entries[c_index].is_none() {
        self.trie_entries[last].entries[c_index] = Some(self.trie_entries.len());
        self.trie_entries.push(TrieEntry::default());
    }
    last = self.trie_entries[last].entries[c_index].unwrap();
>> *)
Definition add_word_step (t : Trie) (last : nat) (c : T) : option (Trie * nat) :=
  let c_index := index c in
  let* e := vec_get t last in
  let* slot := vec_get (entries e) c_index in
  let* t1 :=
    match slot with
    | None =>
        let* e0 := vec_get t last in
        let* t0 := vec_set t last (set_entry e0 c_index (Some (length t))) in
        Some (t0 ++ [TrieEntry_default N])
    | Some _ => Some t
    end in
  let* e1 := vec_get t1 last in
  let* slot1 := vec_get (entries e1) c_index in
  match slot1 with
  | Some j => Some (t1, j)
  | None => None
  end.

Fixpoint add_word_loop (t : Trie) (last : nat) (word : list T) : option (Trie * nat) :=
  match word with
  | [] => Some (t, last)
  | c :: word' =>
      let* r := add_word_step t last c in
      add_word_loop (fst r) (snd r) word'
  end.

(** [fn add_word(&mut self, word)]: walk from the root (entry 0), then
    [self.trie_entries[last].terminal = true]. *)
Definition add_word (t : Trie) (word : list T) : option Trie :=
  let* r := add_word_loop t 0 word in
  let* e := vec_get (fst r) (snd r) in
  vec_set (fst r) (snd r) (set_terminal e).

Fixpoint from_iter_loop (t : Trie) (words : list (list T)) : option Trie :=
  match words with
  | [] => Some t
  | w :: ws => let* t' := add_word t w in from_iter_loop t' ws
  end.

(** [FromIterator::from_iter]: [Trie::default()] then [add_word] for each word. *)
Definition from_iter (words : list (list T)) : option Trie :=
  from_iter_loop (Trie_default N) words.

End AddWord.

(** The dynamic program of [count_all_word_arrangements], over an abstract
    cursor: [child cur c] is [self.trie_entries[cur].entries[c]] (outer
    [None]: a panic) and [is_terminal cur] is [self.trie_entries[cur].terminal]. *)
Section Dp.
Context {Cur : Type}.
Variable child : Cur -> nat -> option (option Cur).
Variable is_terminal : Cur -> option bool.
Variable root : Cur.

(** The inner loop [for end_prefix in start_prefix..word.len()]; [rest] is
    [word[end_prefix..]] (as symbol indices). *)
Fixpoint count_inner (cur : Cur) (start_prefix end_prefix : nat)
    (rest : list nat) (reach : list Z) : option (list Z) :=
  match rest with
  | [] => Some reach
  | c_index :: rest' =>
      let* slot := child cur c_index in
      match slot with
      | None => Some reach (* break *)
      | Some cur' =>
          let* term := is_terminal cur' in
          if term then
            let* r_end := vec_get reach (S end_prefix) in
            let* r_start := vec_get reach start_prefix in
            let* reach' := vec_set reach (S end_prefix) (u64_add r_end r_start) in
            count_inner cur' start_prefix (S end_prefix) rest' reach'
          else count_inner cur' start_prefix (S end_prefix) rest' reach
      end
  end.

(** The outer loop [for start_prefix in 0..word.len()]; [rest] is
    [word[start_prefix..]]. *)
Fixpoint count_outer (start_prefix : nat) (rest : list nat) (reach : list Z)
    : option (list Z) :=
  match rest with
  | [] => Some reach
  | _ :: rest' =>
      let* r_start := vec_get reach start_prefix in
      if (r_start =? 0)%Z then count_outer (S start_prefix) rest' reach
      else
        let* reach' := count_inner root start_prefix start_prefix rest reach in
        count_outer (S start_prefix) rest' reach'
  end.

Definition count_dp (word : list nat) : option Z :=
  let* reach0 := vec_set (repeat 0%Z (S (length word))) 0 1%Z in
  let* reach := count_outer 0 word reach0 in
  vec_get reach (length word).

End Dp.

Definition trie_child (t : Trie) (last c : nat) : option (option nat) :=
  let* e := vec_get t last in vec_get (entries e) c.

Definition trie_terminal (t : Trie) (j : nat) : option bool :=
  let* e := vec_get t j in Some (terminal e).

(** [pub fn count_all_word_arrangements(&self, word: &[T]) -> u64]; the walk
    starts at entry 0 for each start prefix. *)
Definition count_all_word_arrangements {T} `{TrieElement T} (t : Trie) (word : list T)
    : option Z :=
  count_dp (trie_child t) (trie_terminal t) 0 (map index word).

(* ------------------------------------------------------------------ *)
(** * What a trie stands for *)

(** Following the children of the entries from entry [i] along the symbol
    indices [u]. *)
Fixpoint walk (t : Trie) (i : nat) (u : list nat) : option nat :=
  match u with
  | [] => Some i
  | c :: u' =>
      match trie_child t i c with
      | Some (Some j) => walk t j u'
      | _ => None
      end
  end.

(** Arena well-formedness: a root, [N] child slots per entry, and every child
    handle in bounds. *)
Definition wf_trie (N : nat) (t : Trie) : Prop :=
  t <> [] /\
  (forall e, In e t -> length (entries e) = N) /\
  (forall e j, In e t -> In (Some j) (entries e) -> j < length t).

(** [t] stores the prefix-closed set [P] of paths and the set [Tm] of words
    ending at a terminal entry; distinct paths lead to distinct entries. *)
Record represents (N : nat) (t : Trie) (P Tm : list nat -> Prop) : Prop := {
  rep_wf : wf_trie N t;
  rep_reach : forall u, walk t 0 u <> None <-> P u;
  rep_term : forall u i, walk t 0 u = Some i -> (trie_terminal t i = Some true <-> Tm u);
  rep_inj : forall u v i, walk t 0 u = Some i -> walk t 0 v = Some i -> u = v;
  rep_TP : forall u, Tm u -> P u
}.

Definition prefix (u v : list nat) : Prop := exists x, v = u ++ x.

(** Paths of the trie built from [pats] (as symbol indices). *)
Definition Pset (pats : list (list nat)) (u : list nat) : Prop :=
  u = [] \/ exists p, In p pats /\ prefix u p.

(** Words of the trie built from [pats]. *)
Definition Tset (pats : list (list nat)) (u : list nat) : Prop := In u pats.

Definition in_alphabet (N : nat) (u : list nat) : Prop := Forall (fun c => c < N) u.

(** The query run on the pattern set itself rather than on the arena: the
    cursor is the consumed substring [v]; it has a child [v ++ [c]] when that
    is a prefix of a pattern, and it is terminal when it is a pattern. *)
Fixpoint is_prefixb (u v : list nat) : bool :=
  match u, v with
  | [], _ => true
  | a :: u', b :: v' => Nat.eqb a b && is_prefixb u' v'
  | _ :: _, [] => false
  end.

Definition in_patterns (pats : list (list nat)) (u : list nat) : bool :=
  if in_dec (list_eq_dec Nat.eq_dec) u pats then true else false.

Definition lang_isP (pats : list (list nat)) (u : list nat) : bool :=
  existsb (is_prefixb u) pats.

Definition lang_child (N : nat) (isP : list nat -> bool) (v : list nat) (c : nat)
    : option (option (list nat)) :=
  if c <? N then Some (if isP (v ++ [c]) then Some (v ++ [c]) else None) else None.

Definition lang_terminal (isT : list nat -> bool) (v : list nat) : option bool :=
  Some (isT v).

Definition count_lang (N : nat) (pats : list (list nat)) (w : list nat) : option Z :=
  count_dp (lang_child N (lang_isP pats)) (lang_terminal (in_patterns pats)) [] w.

(* ------------------------------------------------------------------ *)
(** * Reference counts *)

Definition sum_range (lo n : nat) (f : nat -> Z) : Z :=
  fold_right Z.add 0%Z (map f (seq lo n)).

(** Brute force over all partitions of [x], by the first piece: a non-empty
    first piece [firstn k x] that is a pattern, and a partition of the rest
    [skipn k x]; the empty word has the one empty partition.  [fuel] bounds
    the recursion by the length of [x]. *)
Fixpoint partitions_fuel (isT : list nat -> bool) (fuel : nat) (x : list nat) : Z :=
  match fuel, x with
  | _, [] => 1%Z
  | O, _ :: _ => 0%Z
  | S f, _ :: _ =>
      sum_range 1 (length x) (fun k =>
        if isT (firstn k x) then partitions_fuel isT f (skipn k x) else 0%Z)
  end.

Definition partitions (isT : list nat -> bool) (x : list nat) : Z :=
  partitions_fuel isT (length x) x.

(** Number of ways to write [x] as a concatenation of one or more patterns
    drawn from [pats]. *)
Definition arrangements (pats : list (list nat)) (x : list nat) : Z :=
  match x with [] => 0%Z | _ => partitions (in_patterns pats) x end.

(** The partitions again, counted by their last piece [skipn i x]. *)
Fixpoint partitions_last_fuel (isT : list nat -> bool) (fuel : nat) (x : list nat) : Z :=
  match fuel, x with
  | _, [] => 1%Z
  | O, _ :: _ => 0%Z
  | S f, _ :: _ =>
      sum_range 0 (length x) (fun i =>
        if isT (skipn i x) then partitions_last_fuel isT f (firstn i x) else 0%Z)
  end.

Definition partitions_last (isT : list nat -> bool) (x : list nat) : Z :=
  partitions_last_fuel isT (length x) x.

(* ------------------------------------------------------------------ *)
(** * Day 19 stripes (src/day19/mod.rs) *)

Inductive Stripe := White | Blue | Black | Red | Green.

(** [Stripe::COUNT] *)
Definition Stripe_COUNT : nat := 5.

#[global] Instance TrieElement_Stripe : TrieElement Stripe :=
  fun s => match s with White => 0 | Blue => 1 | Black => 2 | Red => 3 | Green => 4 end.

(** [impl From<u8> for Stripe]; [unreachable!()] is [None]. *)
Definition stripe_from_u8 (b : ascii) : option Stripe :=
  match b with
  | "w"%char => Some White
  | "u"%char => Some Blue
  | "b"%char => Some Black
  | "r"%char => Some Red
  | "g"%char => Some Green
  | _ => None
  end.

Fixpoint stripes (s : String.string) : option (list Stripe) :=
  match s with
  | String.EmptyString => Some []
  | String.String b s' => let* x := stripe_from_u8 b in let* xs := stripes s' in Some (x :: xs)
  end.

Fixpoint stripes_all (ss : list String.string) : option (list (list Stripe)) :=
  match ss with
  | [] => Some []
  | s :: ss' => let* x := stripes s in let* xs := stripes_all ss' in Some (x :: xs)
  end.

Definition towel_count (patterns : list String.string) (design : String.string) : option Z :=
  let* ps := stripes_all patterns in
  let* t := from_iter Stripe_COUNT ps in
  let* d := stripes design in
  count_all_word_arrangements t d.

(** [Trie::<T, N>::from_iter(patterns).count_all_word_arrangements(&word)] *)
Definition from_iter_count {T} `{TrieElement T} (N : nat) (patterns : list (list T))
    (word : list T) : option Z :=
  let* t := from_iter N patterns in count_all_word_arrangements t word.

(* ------------------------------------------------------------------ *)
(** * The shard helper [shard_and_solve_concurrently] (src/utils.rs) *)

Section Shard.
Context {I Cap O : Type}.

(** [for (i, input) in inputs.into_iter().enumerate() {
        shards[i % available_parallelism].push(input); }] *)
Fixpoint route_loop (available_parallelism i : nat) (inputs : list I)
    (shards : list (list I)) : option (list (list I)) :=
  match inputs with
  | [] => Some shards
  | input :: rest =>
      let* k := usize_rem i available_parallelism in
      let* shard := vec_get shards k in
      let* shards' := vec_set shards k (shard ++ [input]) in
      route_loop available_parallelism (S i) rest shards'
  end.

(** [let mut shards: Vec<_> = (0..available_parallelism).map(|_| Vec::new()).collect();]
    followed by the routing loop.  [available_parallelism] is
    [std::thread::available_parallelism().unwrap().get()], the value of a
    [NonZeroUsize]. *)
Definition make_shards (available_parallelism : nat) (inputs : list I)
    : option (list (list I)) :=
  route_loop available_parallelism 0 inputs (repeat [] available_parallelism).

(** [for shard in shards { ... tx.send(f(shard, capture)).unwrap(); }]: one
    worker per shard, in shard order, each sending one output. *)
Definition shard_outputs (available_parallelism : nat) (inputs : list I) (capture : Cap)
    (f : list I -> Cap -> O) : option (list O) :=
  let* shards := make_shards available_parallelism inputs in
  Some (map (fun shard => f shard capture) shards).

(** [rx.into_iter()] yields the outputs of the workers in the order they
    complete: [received] is a possible sequence of yielded values. *)
Definition shard_and_solve_concurrently (available_parallelism : nat) (inputs : list I)
    (capture : Cap) (f : list I -> Cap -> O) (received : list O) : Prop :=
  exists outs, shard_outputs available_parallelism inputs capture f = Some outs /\
    Permutation outs received.

(** Round-robin sharding as stated: shard [k] holds, in input order, the
    items whose index [i] has [i mod P = k]. *)
Definition round_robin_shard (P : nat) (inputs : list I) (k : nat) : list I :=
  map snd (filter (fun ix => fst ix mod P =? k) (combine (seq 0 (length inputs)) inputs)).

End Shard.

(* ------------------------------------------------------------------ *)
(** * Positions and directions (src/utils.rs) *)

(** usize arithmetic on a 64-bit target, with the wrap-around of release
    builds; [%] panics on a zero divisor. *)
Definition usize_modulus : Z := (2 ^ 64)%Z.
Definition usize_add (a b : Z) : Z := ((a + b) mod usize_modulus)%Z.
Definition usize_sub (a b : Z) : Z := ((a - b) mod usize_modulus)%Z.
Definition usize_mul (a b : Z) : Z := ((a * b) mod usize_modulus)%Z.
Definition usize_rem_z (a b : Z) : option Z := if (b =? 0)%Z then None else Some (a mod b)%Z.

(** [struct Position<T = usize> { row: T, col: T }], at [T = usize]. *)
Record Position := mkPosition { row : Z; col : Z }.

(** [impl Position]: [up], [right], [down], [left] and [surroundings]. *)
Module Position.
Definition up (p : Position) (n : Z) : Position :=
  {| row := usize_sub (row p) n; col := col p |}.
Definition right (p : Position) (n : Z) : Position :=
  {| row := row p; col := usize_add (col p) n |}.
Definition down (p : Position) (n : Z) : Position :=
  {| row := usize_add (row p) n; col := col p |}.
Definition left (p : Position) (n : Z) : Position :=
  {| row := row p; col := usize_sub (col p) n |}.
Definition surroundings (p : Position) : list Position :=
  [up p 1; right p 1; down p 1; left p 1].
End Position.

(** [enum Direction { Up, Right, Down, Left }] *)
Inductive Direction := Up | Right | Down | Left.

(** The derived [PartialEq]. *)
Definition Direction_eqb (a b : Direction) : bool :=
  match a, b with
  | Up, Up | Right, Right | Down, Down | Left, Left => true
  | _, _ => false
  end.

Module Direction.
(** [*self == Self::Right || *self == Self::Left] *)
Definition sideways (d : Direction) : bool :=
  Direction_eqb d Right || Direction_eqb d Left.

Definition turn_clockwise (d : Direction) : Direction :=
  match d with Up => Right | Right => Down | Down => Left | Left => Up end.

Definition turn_counter_clockwise (d : Direction) : Direction :=
  match d with Up => Left | Right => Up | Down => Right | Left => Down end.

End Direction.

(** [Position::go] *)
Definition Position_go (p : Position) (d : Direction) : Position :=
  match d with
  | Up => Position.up p 1
  | Right => Position.right p 1
  | Down => Position.down p 1
  | Left => Position.left p 1
  end.

(* ------------------------------------------------------------------ *)
(** * Day 19 input and answers (src/day19/mod.rs) *)

(** [str::lines]: the text is cut after each ['\n']; a line loses its
    ['\n'] and then a ['\r'] just before it; a last line with no ['\n'] is
    kept as it is, and an empty text has no line. *)
Definition strip_cr (line : list ascii) : list ascii :=
  match rev line with
  | c :: r => if Ascii.eqb c "013"%char then rev r else line
  | [] => line
  end.

Fixpoint lines_aux (cur : list ascii) (s : list ascii) : list (list ascii) :=
  match s with
  | [] => match cur with [] => [] | _ :: _ => [cur] end
  | c :: s' =>
      if Ascii.eqb c "010"%char then strip_cr cur :: lines_aux [] s'
      else lines_aux (cur ++ [c]) s'
  end.

Definition lines (s : list ascii) : list (list ascii) := lines_aux [] s.

(** [str::split(", ")]: pieces between the non-overlapping occurrences of
    [", "], scanned from the left; [""] gives one empty piece. *)
Fixpoint split_comma_space_aux (cur : list ascii) (s : list ascii) : list (list ascii) :=
  match s with
  | [] => [cur]
  | c1 :: s1 =>
      if Ascii.eqb c1 ","%char then
        match s1 with
        | c2 :: s2 =>
            if Ascii.eqb c2 " "%char then cur :: split_comma_space_aux [] s2
            else split_comma_space_aux (cur ++ [c1]) s1
        | [] => split_comma_space_aux (cur ++ [c1]) s1
        end
      else split_comma_space_aux (cur ++ [c1]) s1
  end.

Definition split_comma_space (s : list ascii) : list (list ascii) := split_comma_space_aux [] s.

(** [.bytes().map(Stripe::from)] *)
Definition stripes_of_bytes (l : list ascii) : option (list Stripe) :=
  stripes (string_of_list_ascii l).

(** [collect] of an iterator whose items may panic. *)
Fixpoint collect {A B} (f : A -> option B) (l : list A) : option (list B) :=
  match l with
  | [] => Some []
  | x :: xs => let* y := f x in let* ys := collect f xs in Some (y :: ys)
  end.

(** [struct TowelManager { patterns: Trie<Stripe, { Stripe::COUNT }>, desired_designs }] *)
Record TowelManager := mkTowelManager {
  patterns : Trie;
  desired_designs : list (list Stripe)
}.

(** [TowelManager::new]: the first line split at [", "] gives the patterns
    (collected into a trie), the next line is skipped, and every further line
    is a design. *)
Definition TowelManager_new (file : list ascii) : option TowelManager :=
  match lines file with
  | [] => None (* lines.next().unwrap() *)
  | first :: rest =>
      let* ps := collect stripes_of_bytes (split_comma_space first) in
      let* t := from_iter Stripe_COUNT ps in
      let* ds := collect stripes_of_bytes (tl rest) in
      Some {| patterns := t; desired_designs := ds |}
  end.

(** The loop of [count_all_possible_designs]: [1.. if count_unique_designs]
    adds 1, any other count adds the count. *)
Fixpoint count_designs_loop (t : Trie) (count_unique_designs : bool)
    (designs : list (list Stripe)) (acc : Z) : option Z :=
  match designs with
  | [] => Some acc
  | design :: ds =>
      let* count := count_all_word_arrangements t design in
      count_designs_loop t count_unique_designs ds
        (if count_unique_designs && (1 <=? count)%Z then u64_add acc 1 else u64_add acc count)
  end.

Definition count_all_possible_designs (tm : TowelManager) (count_unique_designs : bool)
    : option Z :=
  count_designs_loop (patterns tm) count_unique_designs (desired_designs tm) 0%Z.

(** The numbers printed by [solve_part1] and [solve_part2]. *)
Definition day19_part1 (file : list ascii) : option Z :=
  let* tm := TowelManager_new file in count_all_possible_designs tm true.
Definition day19_part2 (file : list ascii) : option Z :=
  let* tm := TowelManager_new file in count_all_possible_designs tm false.

(** The byte of a stripe, as the input writes it ([Stripe::from] read backwards). *)
Definition stripe_byte (s : Stripe) : ascii :=
  match s with
  | White => "w" | Blue => "u" | Black => "b" | Red => "r" | Green => "g"
  end%char.

(** An input file: the patterns joined by [", "], one more line, then one
    line per design. *)
Fixpoint join_comma_space (ws : list (list ascii)) : list ascii :=
  match ws with
  | [] => []
  | [w] => w
  | w :: ws' => w ++ [","%char; " "%char] ++ join_comma_space ws'
  end.

Definition towel_file (pats : list (list Stripe)) (second : list ascii)
    (designs : list (list Stripe)) : list ascii :=
  join_comma_space (map (map stripe_byte) pats) ++ ["010"%char] ++ second ++ ["010"%char] ++
  concat (map (fun d => map stripe_byte d ++ ["010"%char]) designs).

(** The number [count_all_word_arrangements] gives for one design: 1 for the
    empty design, otherwise the arrangements reduced modulo 2^64. *)
Definition design_count (pats : list (list Stripe)) (d : list Stripe) : Z :=
  match d with
  | [] => 1%Z
  | _ :: _ => (arrangements (map (map index) pats) (map index d) mod u64_modulus)%Z
  end.

(** A position whose coordinates are usize values. *)
Definition valid_position (p : Position) : Prop :=
  (0 <= row p < usize_modulus)%Z /\ (0 <= col p < usize_modulus)%Z.


(* ------------------------------------------------------------------ *)
(** * Day 14 robots and the part 2 search (src/day14/mod.rs) *)

(** i32 arithmetic with the wrap-around of release builds: [as i32] keeps
    the low 32 bits, [as usize] of an i32 sign-extends, and [rem_euclid]
    panics on a zero divisor and on [i32::MIN.rem_euclid(-1)] (its [%]). *)
Definition i32_wrap (z : Z) : Z := ((z + 2 ^ 31) mod 2 ^ 32 - 2 ^ 31)%Z.
Definition i32_mul (a b : Z) : Z := i32_wrap (a * b).
Definition usize_as_i32 (u : Z) : Z := i32_wrap u.
Definition i32_as_usize (v : Z) : Z := (v mod usize_modulus)%Z.

(** [let r = self % rhs; if r < 0 { r.wrapping_add(rhs.wrapping_abs()) } else { r }] *)
Definition i32_rem_euclid (a b : Z) : option Z :=
  if ((b =? 0) || ((a =? - 2 ^ 31) && (b =? -1)))%Z then None
  else
    let r := Z.rem a b in
    Some (if (r <? 0)%Z then i32_wrap (r + i32_wrap (Z.abs b)) else r).

(** [struct Velocity { horizontal: i32, vertical: i32 }] *)
Record Velocity := mkVelocity { horizontal : Z; vertical : Z }.

(** [struct Robot { position: Position, velocity: Velocity }] *)
Record Robot := mkRobot { position : Position; velocity : Velocity }.

(** [Robot::run] *)
Definition Robot_run (r : Robot) (num_generations num_horizontal_tiles num_vertical_tiles : Z)
    : option Robot :=
  let* row_translation :=
    i32_rem_euclid (i32_mul (vertical (velocity r)) (usize_as_i32 num_generations))
      (usize_as_i32 num_vertical_tiles) in
  let* final_row :=
    usize_rem_z (usize_add (row (position r)) (i32_as_usize row_translation))
      num_vertical_tiles in
  let* col_translation :=
    i32_rem_euclid (i32_mul (horizontal (velocity r)) (usize_as_i32 num_generations))
      (usize_as_i32 num_horizontal_tiles) in
  let* final_col :=
    usize_rem_z (usize_add (col (position r)) (i32_as_usize col_translation))
      num_horizontal_tiles in
  Some {| position := {| row := final_row; col := final_col |}; velocity := velocity r |}.

(** [struct Simulation] *)
Record Simulation := mkSimulation {
  robots : list Robot;
  num_horizontal_tiles : Z;
  num_vertical_tiles : Z;
  generation : Z
}.

(** [Simulation::run] *)
Definition Simulation_run (s : Simulation) (num_generations : Z) : option Simulation :=
  let* robots' :=
    collect (fun robot => Robot_run robot num_generations (num_horizontal_tiles s)
                            (num_vertical_tiles s)) (robots s) in
  Some {| robots := robots';
          num_horizontal_tiles := num_horizontal_tiles s;
          num_vertical_tiles := num_vertical_tiles s;
          generation := usize_add (generation s) num_generations |}.

(** The loop of [calculate_safety_factor]: the robots counted in each
    quadrant (top left, top right, bottom left, bottom right). *)
Fixpoint quadrant_loop (median_row median_col : Z) (rs : list Robot)
    (q : Z * Z * Z * Z) : Z * Z * Z * Z :=
  match rs with
  | [] => q
  | robot :: rs' =>
      let '(top_left, top_right, bottom_left, bottom_right) := q in
      let row := row (position robot) in
      let col := col (position robot) in
      quadrant_loop median_row median_col rs'
        (if (row <? median_row)%Z && (col <? median_col)%Z then
           (usize_add top_left 1, top_right, bottom_left, bottom_right)
         else if (row <? median_row)%Z && (median_col <? col)%Z then
           (top_left, usize_add top_right 1, bottom_left, bottom_right)
         else if (median_row <? row)%Z && (col <? median_col)%Z then
           (top_left, top_right, usize_add bottom_left 1, bottom_right)
         else if (median_row <? row)%Z && (median_col <? col)%Z then
           (top_left, top_right, bottom_left, usize_add bottom_right 1)
         else (top_left, top_right, bottom_left, bottom_right))
  end.

(** [Simulation::calculate_safety_factor] *)
Definition calculate_safety_factor (s : Simulation) : Z :=
  let '(top_left, top_right, bottom_left, bottom_right) :=
    quadrant_loop (num_vertical_tiles s / 2) (num_horizontal_tiles s / 2) (robots s)
      (0, 0, 0, 0)%Z in
  usize_mul (usize_mul (usize_mul top_left top_right) bottom_left) bottom_right.

(** [usize::MAX] *)
Definition usize_MAX : Z := (usize_modulus - 1)%Z.

(** The loop of the reducer that [solve_part2] passes to
    [shard_and_solve_concurrently]. *)
Fixpoint part2_shard_loop (simulation : Simulation) (generations : list Z)
    (min_safety_factor : Z) (min_simulation : option Simulation)
    : option (Z * option Simulation) :=
  match generations with
  | [] => Some (min_safety_factor, min_simulation)
  | g :: gs =>
      let* next_simulation := Simulation_run simulation g in
      let next_safety_factor := calculate_safety_factor next_simulation in
      if (next_safety_factor <? min_safety_factor)%Z
      then part2_shard_loop simulation gs next_safety_factor (Some next_simulation)
      else part2_shard_loop simulation gs min_safety_factor min_simulation
  end.

(** The reducer: [(min_safety_factor, min_simulation.unwrap().generation)]. *)
Definition part2_shard (generations : list Z) (simulation : Simulation) : option (Z * Z) :=
  let* res := part2_shard_loop simulation generations usize_MAX None in
  let* min_simulation := snd res in
  Some (fst res, generation min_simulation).

(** [shard_and_solve_concurrently] with a reducer that may panic: a worker
    that panics drops its sender without sending, so [rx.into_iter()] yields,
    in any order, the outputs of the other workers. *)
Definition shard_and_solve_received {I Cap O} (available_parallelism : nat) (inputs : list I)
    (capture : Cap) (f : list I -> Cap -> option O) (received : list O) : Prop :=
  exists shards, make_shards available_parallelism inputs = Some shards /\
    Permutation (flat_map (fun shard => match f shard capture with
                                        | Some o => [o] | None => [] end) shards)
      received.

(** [Ord] of [(usize, usize)]: lexicographic. *)
Definition pair_ltb (a b : Z * Z) : bool :=
  ((fst a <? fst b) || ((fst a =? fst b) && (snd a <? snd b)))%Z.

(** [Iterator::min]: [cmp::min_by] keeps the earlier item on a tie. *)
Fixpoint iter_min_aux (m : Z * Z) (l : list (Z * Z)) : Z * Z :=
  match l with
  | [] => m
  | x :: xs => iter_min_aux (if pair_ltb x m then x else m) xs
  end.

Definition iter_min (l : list (Z * Z)) : option (Z * Z) :=
  match l with [] => None | x :: xs => Some (iter_min_aux x xs) end.

(** [shard_and_solve_concurrently(generations, simulation.clone(), reducer).min().unwrap()]
    for the generations [generations]; [None] is the panic of [unwrap]. *)
Definition part2_search (available_parallelism : nat) (generations : list Z)
    (simulation : Simulation) (received : list (Z * Z)) : Prop :=
  shard_and_solve_received available_parallelism generations simulation part2_shard received.

(** A robot on the grid of [H] columns and [V] rows. *)
Definition in_grid (H V : Z) (r : Robot) : Prop :=
  (0 <= row (position r) < V)%Z /\ (0 <= col (position r) < H)%Z.

(** [solve_part2] searches the generations [1..10000]. *)
Definition day14_generations : list Z := map Z.of_nat (seq 1 (Z.to_nat 9999)).

(* ------------------------------------------------------------------ *)
(** * Proofs: Rust primitives *)

Lemma length_list_set {A} (l : list A) k x : length (list_set l k x) = length l.
Proof. revert k; induction l; intros [|k]; simpl; auto. Qed.

Lemma nth_error_list_set {A} (l : list A) k x j :
  nth_error (list_set l k x) j =
  if Nat.eqb j k then (match nth_error l j with Some _ => Some x | None => None end)
  else nth_error l j.
Proof.
  revert k j; induction l as [|y l IH]; intros [|k] [|j]; simpl; auto;
    try (destruct (j =? _); reflexivity); try (destruct (0 =? _); reflexivity).
Qed.

Lemma vec_set_some {A} (l : list A) k x :
  k < length l -> vec_set l k x = Some (list_set l k x).
Proof. intro Hk. unfold vec_set. apply Nat.ltb_lt in Hk. now rewrite Hk. Qed.

Lemma vec_get_lt {A} (l : list A) k : k < length l -> exists x, vec_get l k = Some x.
Proof.
  intro Hk. unfold vec_get. destruct (nth_error l k) eqn:E; eauto.
  apply nth_error_None in E. lia.
Qed.

Lemma In_list_set {A} (l : list A) k x y : In y (list_set l k x) -> In y l \/ y = x.
Proof.
  revert k; induction l as [|z l IH]; intros [|k]; simpl; try tauto.
  - intros [<-|H]; tauto.
  - intros [<-|H]; [tauto|]. destruct (IH k H); tauto.
Qed.

(* ------------------------------------------------------------------ *)
(** * Proofs: walks in the arena *)

Lemma walk_app t i u v :
  walk t i (u ++ v) = match walk t i u with Some j => walk t j v | None => None end.
Proof.
  revert i; induction u as [|c u IH]; intro i; simpl; auto.
  destruct (trie_child t i c) as [[j|]|]; auto.
Qed.

Lemma walk_snoc t i u c :
  walk t i (u ++ [c]) =
  match walk t i u with
  | Some j => match trie_child t j c with Some (Some k) => Some k | _ => None end
  | None => None
  end.
Proof.
  rewrite walk_app. destruct (walk t i u) as [j|]; simpl; auto.
Qed.

Lemma walk_ext t t' i u :
  (forall j c, trie_child t j c = trie_child t' j c) -> walk t i u = walk t' i u.
Proof.
  intro Hc; revert i; induction u as [|c u IH]; intro i; simpl; auto.
  rewrite Hc. destruct (trie_child t' i c) as [[j|]|]; auto.
Qed.

Lemma trie_child_lt N t i c j :
  wf_trie N t -> trie_child t i c = Some (Some j) -> j < length t.
Proof.
  intros (_ & _ & Hb) Hc. unfold trie_child, vec_get in Hc.
  destruct (nth_error t i) as [e|] eqn:Ei; [|discriminate].
  apply (Hb e j); eapply nth_error_In; eauto.
Qed.

Lemma wf_root N t : wf_trie N t -> 0 < length t.
Proof. intros (Hne & _ & _). destruct t; simpl; [congruence | lia]. Qed.

Lemma walk_lt N t i u j :
  wf_trie N t -> i < length t -> walk t i u = Some j -> j < length t.
Proof.
  intros Hwf; revert i; induction u as [|c u IH]; intros i Hi Hw; simpl in Hw.
  - congruence.
  - destruct (trie_child t i c) as [[k|]|] eqn:Ec; try discriminate.
    apply (IH k); auto. eapply trie_child_lt; eauto.
Qed.

Lemma walk_root_lt N t u j : wf_trie N t -> walk t 0 u = Some j -> j < length t.
Proof. intros Hwf. apply walk_lt with N; auto. eapply wf_root; eauto. Qed.

Lemma trie_child_in_range N t i c :
  wf_trie N t -> i < length t -> c < N -> exists slot, trie_child t i c = Some slot.
Proof.
  intros (Hne & Hl & _) Hi Hc. unfold trie_child.
  destruct (vec_get_lt t i Hi) as [e Ee]. rewrite Ee.
  apply vec_get_lt. rewrite (Hl e); auto. eapply nth_error_In; eauto.
Qed.

Lemma trie_child_out_of_range N t i c :
  wf_trie N t -> N <= c -> trie_child t i c = None.
Proof.
  intros (_ & Hl & _) Hc. unfold trie_child, vec_get.
  destruct (nth_error t i) as [e|] eqn:Ee; auto.
  apply nth_error_None. rewrite (Hl e); [lia | eapply nth_error_In; eauto].
Qed.

Lemma represents_ext N t P Tm P' Tm' :
  (forall u, P u <-> P' u) -> (forall u, Tm u <-> Tm' u) ->
  represents N t P Tm -> represents N t P' Tm'.
Proof.
  intros HP HT [Hwf Hr Ht Hi Htp]. constructor; auto.
  - intro u. rewrite <- HP. apply Hr.
  - intros u i Hw. rewrite <- HT. eapply Ht; eauto.
  - intros u Hu. apply HP, Htp, HT, Hu.
Qed.

Lemma walk_default N u :
  walk (Trie_default N) 0 u = match u with [] => Some 0 | _ => None end.
Proof.
  destruct u as [|c u]; simpl; auto.
  unfold trie_child, vec_get; simpl.
  destruct (nth_error (repeat None N) c) as [[j|]|] eqn:E; auto.
  apply nth_error_In, repeat_spec in E. discriminate.
Qed.

Lemma represents_default N : represents N (Trie_default N) (Pset []) (Tset []).
Proof.
  constructor.
  - split; [discriminate|split].
    + intros e [<-|[]]. simpl. apply repeat_length.
    + intros e j [<-|[]] Hj. simpl in Hj. apply repeat_spec in Hj. discriminate.
  - intro u. rewrite walk_default. unfold Pset. destruct u; simpl.
    + split; auto; discriminate.
    + split; [congruence|]. intros [H|(p & [] & _)]; discriminate.
  - intros u i Hw. rewrite walk_default in Hw. unfold Tset. destruct u; [|discriminate].
    injection Hw as <-. simpl. split; [discriminate | intros []].
  - intros u v i. rewrite !walk_default. destruct u, v; congruence.
  - intros u [].
Qed.

(** Entries of the arena after [add_word] creates the child [c] of [last]. *)
Lemma nth_error_grow_old N t last e c j :
  nth_error t last = Some e -> j < length t ->
  nth_error (list_set t last (set_entry e c (Some (length t))) ++ [TrieEntry_default N]) j =
  if Nat.eqb j last then Some (set_entry e c (Some (length t))) else nth_error t j.
Proof.
  intros He Hj. rewrite nth_error_app1 by (rewrite length_list_set; lia).
  rewrite nth_error_list_set. destruct (Nat.eqb_spec j last); subst; auto. now rewrite He.
Qed.

Lemma nth_error_grow_new N t last x :
  nth_error (list_set t last x ++ [TrieEntry_default N]) (length t) = Some (TrieEntry_default N).
Proof.
  rewrite nth_error_app2 by (rewrite length_list_set; lia).
  rewrite length_list_set, Nat.sub_diag. reflexivity.
Qed.

Lemma trie_child_grow_old N t last e c j a :
  nth_error t last = Some e -> nth_error (entries e) c = Some None -> j < length t ->
  trie_child (list_set t last (set_entry e c (Some (length t))) ++ [TrieEntry_default N]) j a =
  if Nat.eqb j last && Nat.eqb a c then Some (Some (length t)) else trie_child t j a.
Proof.
  intros He Hc Hj. unfold trie_child, vec_get. rewrite nth_error_grow_old by auto.
  destruct (Nat.eqb_spec j last) as [->|Hne]; simpl; auto.
  rewrite He, nth_error_list_set. destruct (Nat.eqb_spec a c) as [->|]; simpl; auto.
  now rewrite Hc.
Qed.

Lemma trie_child_grow_new N t last x a :
  match trie_child (list_set t last x ++ [TrieEntry_default N]) (length t) a with
  | Some (Some _) => False
  | _ => True
  end.
Proof.
  unfold trie_child, vec_get. rewrite nth_error_grow_new. simpl.
  destruct (nth_error (repeat None N) a) as [[j|]|] eqn:E; auto.
  apply nth_error_In, repeat_spec in E. discriminate.
Qed.

Lemma trie_terminal_grow_old N t last e c j :
  nth_error t last = Some e -> j < length t ->
  trie_terminal (list_set t last (set_entry e c (Some (length t))) ++ [TrieEntry_default N]) j =
  trie_terminal t j.
Proof.
  intros He Hj. unfold trie_terminal, vec_get. rewrite nth_error_grow_old by auto.
  destruct (Nat.eqb_spec j last) as [->|]; auto. now rewrite He.
Qed.

(** Walks after the growth: only the new path [q ++ [c]] changes. *)
Lemma walk_grow N t q c last e :
  wf_trie N t ->
  (forall u v i, walk t 0 u = Some i -> walk t 0 v = Some i -> u = v) ->
  walk t 0 q = Some last -> nth_error t last = Some e -> nth_error (entries e) c = Some None ->
  forall u,
  walk (list_set t last (set_entry e c (Some (length t))) ++ [TrieEntry_default N]) 0 u =
  if list_eq_dec Nat.eq_dec u (q ++ [c]) then Some (length t) else walk t 0 u.
Proof.
  intros Hwf Hinj Hq He Hc u.
  assert (Hqc : walk t 0 (q ++ [c]) = None).
  { rewrite walk_snoc, Hq. unfold trie_child, vec_get. now rewrite He, Hc. }
  induction u as [|a u IH] using rev_ind.
  - destruct (list_eq_dec Nat.eq_dec [] (q ++ [c])) as [E|_]; [destruct q; discriminate|reflexivity].
  - rewrite !walk_snoc, IH.
    destruct (list_eq_dec Nat.eq_dec u (q ++ [c])) as [->|Hu].
    + destruct (list_eq_dec Nat.eq_dec ((q ++ [c]) ++ [a]) (q ++ [c])) as [E|_].
      * apply (f_equal (@length nat)) in E. rewrite !length_app in E. simpl in E. lia.
      * rewrite Hqc.
        pose proof (trie_child_grow_new N t last (set_entry e c (Some (length t))) a) as G.
        destruct (trie_child _ (length t) a) as [[k|]|]; tauto.
    + destruct (list_eq_dec Nat.eq_dec (u ++ [a]) (q ++ [c])) as [E|Hua].
      * apply app_inj_tail in E as [-> ->]. rewrite Hq.
        rewrite trie_child_grow_old by (auto; eapply walk_root_lt; eauto).
        now rewrite !Nat.eqb_refl.
      * destruct (walk t 0 u) as [j|] eqn:Ew; auto.
        rewrite trie_child_grow_old by (auto; eapply walk_root_lt; eauto).
        destruct (Nat.eqb_spec j last) as [->|]; destruct (Nat.eqb_spec a c) as [->|]; simpl; auto.
        exfalso. apply Hua. now rewrite (Hinj u q last Ew Hq).
Qed.

Lemma wf_grow N t last e c :
  wf_trie N t -> nth_error t last = Some e ->
  wf_trie N (list_set t last (set_entry e c (Some (length t))) ++ [TrieEntry_default N]).
Proof.
  intros (Hne & Hl & Hb) He. assert (HeIn : In e t) by (eapply nth_error_In; eauto).
  split; [|split].
  - intro E. apply (f_equal (@length _)) in E. rewrite length_app in E. simpl in E. lia.
  - intros e' Hin. apply in_app_or in Hin as [Hin|[<-|[]]].
    + apply In_list_set in Hin as [Hin| ->]; auto. simpl. rewrite length_list_set. auto.
    + simpl. apply repeat_length.
  - intros e' j Hin Hj. rewrite length_app, length_list_set. simpl.
    apply in_app_or in Hin as [Hin|[<-|[]]].
    + apply In_list_set in Hin as [Hin| ->].
      * specialize (Hb e' j Hin Hj). lia.
      * simpl in Hj. apply In_list_set in Hj as [Hj|Hj].
        -- specialize (Hb e j HeIn Hj). lia.
        -- injection Hj. lia.
    + simpl in Hj. apply repeat_spec in Hj. discriminate.
Qed.

(** One iteration of the loop of [add_word] adds the path [q ++ [c]]. *)
Lemma add_word_step_rep {T} `{TrieElement T} N t P Tm q last (x : T) :
  represents N t P Tm -> walk t 0 q = Some last -> index x < N ->
  exists t' j, add_word_step N t last x = Some (t', j) /\
    represents N t' (fun u => P u \/ u = q ++ [index x]) Tm /\
    walk t' 0 (q ++ [index x]) = Some j.
Proof.
  intros Hrep Hq Hx.
  pose proof (rep_wf _ _ _ _ Hrep) as Hwf.
  assert (Hlast : last < length t) by (eapply walk_root_lt; eauto).
  destruct (vec_get_lt t last Hlast) as [e He]. unfold vec_get in He.
  assert (Hlen : length (entries e) = N)
    by (apply (proj1 (proj2 Hwf)); eapply nth_error_In; eauto).
  assert (Hxl : index x < length (entries e)) by lia.
  destruct (vec_get_lt _ _ Hxl) as [slot Hs]. unfold vec_get in Hs.
  unfold add_word_step, vec_get. rewrite He, Hs.
  destruct slot as [j|].
  - rewrite He, Hs. exists t, j. split; [reflexivity|].
    assert (Hw : walk t 0 (q ++ [index x]) = Some j).
    { rewrite walk_snoc, Hq. unfold trie_child, vec_get. now rewrite He, Hs. }
    split; auto.
    eapply represents_ext; [| intro; reflexivity | exact Hrep].
    intro u. split; [tauto|]. intros [Hu| ->]; auto.
    apply (rep_reach _ _ _ _ Hrep). congruence.
  - rewrite vec_set_some by auto. cbn beta iota.
    rewrite nth_error_grow_old by auto. rewrite Nat.eqb_refl. cbn beta iota.
    simpl entries. rewrite nth_error_list_set, Nat.eqb_refl, Hs.
    eexists _, _. split; [reflexivity|].
    pose proof (walk_grow N t q (index x) last e Hwf (rep_inj _ _ _ _ Hrep) Hq He Hs) as Hg.
    assert (Hqc : walk t 0 (q ++ [index x]) = None).
    { rewrite walk_snoc, Hq. unfold trie_child, vec_get. now rewrite He, Hs. }
    split.
    + constructor.
      * apply wf_grow; auto.
      * intro u. rewrite Hg. destruct (list_eq_dec _ u _) as [->|Hu].
        -- split; [auto|congruence].
        -- rewrite (rep_reach _ _ _ _ Hrep u). tauto.
      * intros u i Hw. rewrite Hg in Hw. destruct (list_eq_dec _ u _) as [->|Hu].
        -- injection Hw as <-. unfold trie_terminal, vec_get. rewrite nth_error_grow_new.
           simpl. split; [discriminate|]. intro HT.
           apply (rep_TP _ _ _ _ Hrep), (rep_reach _ _ _ _ Hrep) in HT. congruence.
        -- rewrite trie_terminal_grow_old by (auto; eapply walk_root_lt; eauto).
           eapply rep_term; eauto.
      * intros u v i Hu Hv. rewrite !Hg in *.
        destruct (list_eq_dec _ u _) as [->|Hu']; destruct (list_eq_dec _ v _) as [->|Hv']; auto.
        -- injection Hu as <-. apply walk_root_lt with (N := N) in Hv; auto. lia.
        -- injection Hv as <-. apply walk_root_lt with (N := N) in Hu; auto. lia.
        -- eapply rep_inj; eauto.
      * intros u Hu. left. eapply rep_TP; eauto.
    + rewrite Hg. destruct (list_eq_dec _ _ _) as [_|E]; [reflexivity|congruence].
Qed.

Lemma walk_prefix t i u y : walk t i (u ++ y) <> None -> walk t i u <> None.
Proof. rewrite walk_app. destruct (walk t i u); congruence. Qed.

Lemma add_word_loop_rep {T} `{TrieElement T} N (word : list T) : forall t P Tm q last,
  represents N t P Tm -> walk t 0 q = Some last -> in_alphabet N (map index word) ->
  exists t' j, add_word_loop N t last word = Some (t', j) /\
    represents N t' (fun u => P u \/ prefix u (q ++ map index word)) Tm /\
    walk t' 0 (q ++ map index word) = Some j.
Proof.
  induction word as [|x word IH]; intros t P Tm q last Hrep Hq Hin; simpl.
  - exists t, last. rewrite app_nil_r. split; auto. split; auto.
    eapply represents_ext; [| intro; reflexivity | exact Hrep].
    intro u; split; [tauto|]. intros [Hu|[y ->]]; auto.
    apply (rep_reach _ _ _ _ Hrep). apply walk_prefix with y. congruence.
  - inversion Hin as [|? ? Hx Hin']; subst.
    destruct (add_word_step_rep N t P Tm q last x Hrep Hq Hx) as (t1 & j1 & Hs & Hrep1 & Hw1).
    rewrite Hs. simpl.
    destruct (IH t1 _ Tm (q ++ [index x]) j1 Hrep1 Hw1 Hin') as (t' & j & Hl & Hrep' & Hw').
    rewrite <- app_assoc in Hrep', Hw'. simpl in Hrep', Hw'.
    exists t', j. split; auto. split; auto.
    eapply represents_ext; [| intro; reflexivity | exact Hrep'].
    intro u. split.
    + intros [[Hu| ->]|Hu]; auto. right. exists (map index word). now rewrite <- app_assoc.
    + tauto.
Qed.

Lemma trie_child_set_terminal t i e j c :
  nth_error t i = Some e -> trie_child (list_set t i (set_terminal e)) j c = trie_child t j c.
Proof.
  intro He. unfold trie_child, vec_get. rewrite nth_error_list_set.
  destruct (Nat.eqb_spec j i) as [->|]; auto. now rewrite He.
Qed.

Lemma trie_terminal_set_terminal t i e j :
  nth_error t i = Some e ->
  trie_terminal (list_set t i (set_terminal e)) j =
  if Nat.eqb j i then Some true else trie_terminal t j.
Proof.
  intro He. unfold trie_terminal, vec_get. rewrite nth_error_list_set.
  destruct (Nat.eqb_spec j i) as [->|]; auto. now rewrite He.
Qed.

(** The last statement of [add_word] marks the entry of [w] terminal. *)
Lemma set_terminal_rep N t P Tm w i :
  represents N t P Tm -> walk t 0 w = Some i ->
  exists e t', vec_get t i = Some e /\ vec_set t i (set_terminal e) = Some t' /\
    represents N t' P (fun u => Tm u \/ u = w).
Proof.
  intros Hrep Hw. pose proof (rep_wf _ _ _ _ Hrep) as Hwf.
  assert (Hi : i < length t) by (eapply walk_root_lt; eauto).
  destruct (vec_get_lt t i Hi) as [e He].
  exists e, (list_set t i (set_terminal e)). split; auto. split; [now apply vec_set_some|].
  unfold vec_get in He.
  assert (Hwalk : forall j u, walk (list_set t i (set_terminal e)) j u = walk t j u).
  { intros j u. apply walk_ext. intros; now apply trie_child_set_terminal. }
  destruct Hwf as (Hne & Hl & Hb).
  constructor.
  - split; [|split].
    + destruct t; [congruence|]. destruct i; discriminate.
    + intros e' Hin. apply In_list_set in Hin as [Hin| ->]; auto.
      simpl. apply Hl. eapply nth_error_In; eauto.
    + intros e' j Hin Hj. rewrite length_list_set.
      apply In_list_set in Hin as [Hin| ->]; eauto.
      apply (Hb e); [eapply nth_error_In; eauto | exact Hj].
  - intro u. rewrite Hwalk. apply (rep_reach _ _ _ _ Hrep).
  - intros u k Hu. rewrite Hwalk in Hu. rewrite trie_terminal_set_terminal by auto.
    destruct (Nat.eqb_spec k i) as [->|Hki].
    + pose proof (rep_inj _ _ _ _ Hrep u w i Hu Hw). tauto.
    + rewrite (rep_term _ _ _ _ Hrep u k Hu). split; [tauto|].
      intros [HT| ->]; auto. congruence.
  - intros u v k. rewrite !Hwalk. apply (rep_inj _ _ _ _ Hrep).
  - intros u [Hu| ->]; [eapply rep_TP; eauto|].
    apply (rep_reach _ _ _ _ Hrep). congruence.
Qed.

Lemma add_word_rep {T} `{TrieElement T} N t A (w : list T) :
  represents N t (Pset A) (Tset A) -> in_alphabet N (map index w) ->
  exists t', add_word N t w = Some t' /\
    represents N t' (Pset (A ++ [map index w])) (Tset (A ++ [map index w])).
Proof.
  intros Hrep Hin.
  destruct (add_word_loop_rep N w t (Pset A) (Tset A) [] 0 Hrep eq_refl Hin)
    as (t1 & j & Hl & Hrep1 & Hw1).
  simpl in Hrep1, Hw1.
  destruct (set_terminal_rep N t1 _ _ _ j Hrep1 Hw1) as (e & t' & He & Hs & Hrep').
  exists t'. unfold add_word. rewrite Hl. simpl. rewrite He. split; auto.
  eapply represents_ext; [| | exact Hrep'].
  - intro u. unfold Pset. split.
    + intros [[Hu|(p & Hp & Hup)]|Hu]; auto.
      * right. exists p. rewrite in_app_iff. auto.
      * right. exists (map index w). rewrite in_app_iff. simpl. auto.
    + intros [Hu|(p & Hp & Hup)]; auto. apply in_app_iff in Hp as [Hp|[<-|[]]]; eauto.
  - intro u. unfold Tset. rewrite in_app_iff. simpl. intuition.
Qed.

Lemma from_iter_loop_rep {T} `{TrieElement T} N (ws : list (list T)) : forall t A,
  represents N t (Pset A) (Tset A) -> Forall (fun w => in_alphabet N (map index w)) ws ->
  exists t', from_iter_loop N t ws = Some t' /\
    represents N t' (Pset (A ++ map (map index) ws)) (Tset (A ++ map (map index) ws)).
Proof.
  induction ws as [|w ws IH]; intros t A Hrep Hall; simpl.
  - exists t. rewrite app_nil_r. auto.
  - inversion Hall as [|? ? Hw Hall']; subst.
    destruct (add_word_rep N t A w Hrep Hw) as (t1 & Ha & Hrep1).
    rewrite Ha. destruct (IH t1 _ Hrep1 Hall') as (t' & Hf & Hrep').
    exists t'. rewrite <- app_assoc in Hrep'. auto.
Qed.

(** Construction succeeds on patterns over the alphabet, and the trie stores
    exactly the patterns and their prefixes. *)
Lemma from_iter_rep {T} `{TrieElement T} N (ws : list (list T)) :
  Forall (fun w => in_alphabet N (map index w)) ws ->
  exists t, from_iter N ws = Some t /\
    represents N t (Pset (map (map index) ws)) (Tset (map (map index) ws)).
Proof.
  intro Hall. apply (from_iter_loop_rep N ws _ [] (represents_default N) Hall).
Qed.

(** A word with a symbol out of the alphabet makes [add_word] panic. *)
Lemma add_word_loop_out_of_range {T} `{TrieElement T} N (word : list T) : forall t P Tm q last,
  represents N t P Tm -> walk t 0 q = Some last -> ~ in_alphabet N (map index word) ->
  add_word_loop N t last word = None.
Proof.
  induction word as [|x word IH]; intros t P Tm q last Hrep Hq Hin; simpl.
  - exfalso. apply Hin. constructor.
  - destruct (Nat.lt_ge_cases (index x) N) as [Hx|Hx].
    + destruct (add_word_step_rep N t P Tm q last x Hrep Hq Hx) as (t1 & j1 & Hs & Hrep1 & Hw1).
      rewrite Hs. simpl. eapply IH; eauto.
      intro Hw. apply Hin. constructor; auto.
    + pose proof (rep_wf _ _ _ _ Hrep) as Hwf.
      assert (Hlast : last < length t) by (eapply walk_root_lt; eauto).
      pose proof (trie_child_out_of_range N t last (index x) Hwf Hx) as Hc.
      unfold add_word_step. unfold trie_child in Hc.
      destruct (vec_get t last) as [e|]; [|reflexivity].
      rewrite Hc. reflexivity.
Qed.

Lemma from_iter_loop_out_of_range {T} `{TrieElement T} N (ws : list (list T)) : forall t A,
  represents N t (Pset A) (Tset A) -> ~ Forall (fun w => in_alphabet N (map index w)) ws ->
  from_iter_loop N t ws = None.
Proof.
  induction ws as [|w ws IH]; intros t A Hrep Hall; simpl.
  - exfalso. apply Hall. constructor.
  - destruct (Forall_dec _ (fun c => lt_dec c N) (map index w)) as [Hw|Hw].
    + destruct (add_word_rep N t A w Hrep Hw) as (t1 & Ha & Hrep1).
      rewrite Ha. apply IH with (A := A ++ [map index w]); [exact Hrep1|].
      intro Hws. apply Hall. constructor; auto.
    + unfold add_word.
      rewrite (add_word_loop_out_of_range N w t _ _ [] 0 Hrep eq_refl Hw). reflexivity.
Qed.

(** Construction panics exactly when a pattern leaves the alphabet. *)
Lemma from_iter_None {T} `{TrieElement T} N (ws : list (list T)) :
  from_iter N ws = None <-> ~ Forall (fun w => in_alphabet N (map index w)) ws.
Proof.
  split.
  - intros Hn Hall. destruct (from_iter_rep N ws Hall) as (t & Ht & _). congruence.
  - apply from_iter_loop_out_of_range with (A := []). apply represents_default.
Qed.

(* ------------------------------------------------------------------ *)
(** * Proofs: the arena query agrees with the query on the pattern set *)

Lemma is_prefixb_spec u v : is_prefixb u v = true <-> prefix u v.
Proof.
  revert v; induction u as [|a u IH]; intros [|b v]; simpl.
  - split; [exists []; auto | auto].
  - split; [exists (b :: v); auto | auto].
  - split; [discriminate | intros [x Hx]; discriminate].
  - rewrite andb_true_iff, Nat.eqb_eq, IH. unfold prefix. split.
    + intros [-> [x ->]]. exists x. reflexivity.
    + intros [x Hx]. injection Hx as -> ->. eauto.
Qed.

Lemma lang_isP_spec pats u : lang_isP pats u = true <-> exists p, In p pats /\ prefix u p.
Proof.
  unfold lang_isP. rewrite existsb_exists. split.
  - intros (p & Hp & Hb). apply is_prefixb_spec in Hb. eauto.
  - intros (p & Hp & Hb). apply is_prefixb_spec in Hb. eauto.
Qed.

Lemma in_patterns_spec pats u : in_patterns pats u = true <-> In u pats.
Proof. unfold in_patterns. destruct (in_dec _ u pats); split; auto; discriminate. Qed.

Section Sim.
Context {C1 C2 : Type}.
Variables (ch1 : C1 -> nat -> option (option C1)) (te1 : C1 -> option bool) (r1 : C1).
Variables (ch2 : C2 -> nat -> option (option C2)) (te2 : C2 -> option bool) (r2 : C2).
Variable R : C1 -> C2 -> Prop.
Hypothesis Hroot : R r1 r2.
Hypothesis Hstep : forall a b c, R a b ->
  match ch1 a c, ch2 b c with
  | None, None => True
  | Some None, Some None => True
  | Some (Some a'), Some (Some b') => R a' b' /\ te1 a' = te2 b'
  | _, _ => False
  end.

Lemma count_inner_sim rest : forall a b s e reach, R a b ->
  count_inner ch1 te1 a s e rest reach = count_inner ch2 te2 b s e rest reach.
Proof.
  induction rest as [|c rest IH]; intros a b s e reach Hab; cbn [count_inner]; auto.
  specialize (Hstep a b c Hab).
  destruct (ch1 a c) as [[a'|]|], (ch2 b c) as [[b'|]|]; try contradiction; auto.
  destruct Hstep as [HR Ht]. rewrite Ht.
  destruct (te2 b') as [[|]|]; auto.
  - destruct (vec_get reach (S e)) as [x|], (vec_get reach s) as [y|]; auto.
    destruct (vec_set reach (S e) (u64_add x y)); auto.
Qed.

Lemma count_outer_sim rest : forall s reach,
  count_outer ch1 te1 r1 s rest reach = count_outer ch2 te2 r2 s rest reach.
Proof.
  induction rest as [|c rest IH]; intros s reach; cbn [count_outer]; auto.
  destruct (vec_get reach s) as [r|]; auto.
  destruct (r =? 0)%Z; auto.
  rewrite (count_inner_sim (c :: rest) r1 r2 s s reach Hroot).
  destruct (count_inner ch2 te2 r2 s s (c :: rest) reach); auto.
Qed.

Lemma count_dp_sim w : count_dp ch1 te1 r1 w = count_dp ch2 te2 r2 w.
Proof.
  unfold count_dp. destruct (vec_set _ _ _); auto. rewrite count_outer_sim. reflexivity.
Qed.

End Sim.

(** On a trie that stores the patterns [pats], the query only depends on
    [pats]. *)
Lemma count_trie_lang N t pats w :
  represents N t (Pset pats) (Tset pats) ->
  count_dp (trie_child t) (trie_terminal t) 0 w = count_lang N pats w.
Proof.
  intro Hrep. pose proof (rep_wf _ _ _ _ Hrep) as Hwf.
  unfold count_lang.
  apply count_dp_sim with (R := fun j v => walk t 0 v = Some j); [reflexivity|].
  intros j v c Hjv. unfold lang_child.
  destruct (Nat.ltb_spec c N) as [Hc|Hc].
  - assert (Hj : j < length t) by (eapply walk_root_lt; eauto).
    destruct (trie_child_in_range N t j c Hwf Hj Hc) as [slot Hs]. rewrite Hs.
    assert (Hw : walk t 0 (v ++ [c]) = match slot with Some k => Some k | None => None end).
    { rewrite walk_snoc, Hjv, Hs. destruct slot; auto. }
    assert (HP : lang_isP pats (v ++ [c]) = true <-> walk t 0 (v ++ [c]) <> None).
    { rewrite lang_isP_spec, (rep_reach _ _ _ _ Hrep). unfold Pset.
      split; [auto|]. intros [E|H]; auto. destruct v; discriminate. }
    destruct slot as [k|].
    + assert (Ht : lang_isP pats (v ++ [c]) = true) by (apply HP; congruence).
      rewrite Ht. split; auto.
      pose proof (rep_term _ _ _ _ Hrep _ _ Hw) as HT.
      assert (Hk : k < length t) by (eapply walk_root_lt; eauto).
      unfold trie_terminal, lang_terminal, vec_get in *.
      destruct (vec_get_lt t k Hk) as [e He]. unfold vec_get in He. rewrite He in *.
      f_equal. apply eq_true_iff_eq. rewrite in_patterns_spec. unfold Tset in HT.
      rewrite <- HT. split; [intros ->; auto | congruence].
    + assert (Hf : lang_isP pats (v ++ [c]) <> true) by (rewrite HP, Hw; congruence).
      destruct (lang_isP pats (v ++ [c])); [contradiction|auto].
  - rewrite trie_child_out_of_range with (N := N); auto.
Qed.

Lemma from_iter_in_alphabet {T} `{TrieElement T} N (ws : list (list T)) t :
  from_iter N ws = Some t -> Forall (fun w => in_alphabet N (map index w)) ws.
Proof.
  intro Ht. destruct (Forall_dec _ (fun w => Forall_dec _ (fun c => lt_dec c N) (map index w)) ws)
    as [Hall|Hall]; auto.
  apply from_iter_None in Hall. congruence.
Qed.

(** The query on a built trie is the query on its pattern set. *)
Lemma count_from_iter {T} `{TrieElement T} N (ws : list (list T)) t (w : list T) :
  from_iter N ws = Some t ->
  count_all_word_arrangements t w = count_lang N (map (map index) ws) (map index w).
Proof.
  intro Ht. pose proof (from_iter_in_alphabet N ws t Ht) as Hall.
  destruct (from_iter_rep N ws Hall) as (t' & Ht' & Hrep).
  rewrite Ht in Ht'. injection Ht' as <-.
  apply count_trie_lang. exact Hrep.
Qed.

(* ------------------------------------------------------------------ *)
(** * Proofs: sums and reference counts *)

Lemma sum_range_S lo n f : sum_range lo (S n) f = (sum_range lo n f + f (lo + n)%nat)%Z.
Proof.
  unfold sum_range. rewrite seq_S, map_app, fold_right_app. simpl.
  generalize (f (lo + n)%nat). induction (map f (seq lo n)) as [|a l IH]; intro z; simpl; [lia|].
  rewrite IH. lia.
Qed.

Lemma sum_range_0 lo f : sum_range lo 0 f = 0%Z.
Proof. reflexivity. Qed.

Lemma sum_range_ext_in lo n f g :
  (forall i, lo <= i < lo + n -> f i = g i) -> sum_range lo n f = sum_range lo n g.
Proof.
  induction n as [|n IH]; intro Hfg; [reflexivity|].
  rewrite !sum_range_S, IH by (intros; apply Hfg; lia).
  rewrite Hfg by lia. reflexivity.
Qed.

Lemma sum_range_add lo n f g :
  sum_range lo n (fun i => f i + g i)%Z = (sum_range lo n f + sum_range lo n g)%Z.
Proof. induction n as [|n IH]; [reflexivity|]. rewrite !sum_range_S, IH. lia. Qed.

Lemma sum_range_shift lo n f : sum_range lo n f = sum_range 0 n (fun i => f (lo + i)%nat).
Proof.
  induction n as [|n IH]; [reflexivity|]. rewrite !sum_range_S, IH. reflexivity.
Qed.

Lemma sum_range_first lo n f :
  sum_range lo (S n) f = (f lo + sum_range (S lo) n f)%Z.
Proof. unfold sum_range. simpl. reflexivity. Qed.

Lemma partitions_fuel_enough isT f1 : forall f2 x,
  length x <= f1 -> length x <= f2 -> partitions_fuel isT f1 x = partitions_fuel isT f2 x.
Proof.
  induction f1 as [|f1 IH]; intros [|f2] [|a x] H1 H2; simpl in *; try lia; auto.
  apply sum_range_ext_in. intros k Hk.
  simpl in Hk. destruct (isT _); auto.
  apply IH; rewrite length_skipn; destruct k; simpl; lia.
Qed.

Lemma partitions_eq isT x :
  partitions isT x =
  match x with
  | [] => 1%Z
  | _ => sum_range 1 (length x) (fun k =>
           if isT (firstn k x) then partitions isT (skipn k x) else 0%Z)
  end.
Proof.
  unfold partitions. destruct x as [|a x]; [reflexivity|]. simpl length at 1. simpl.
  apply sum_range_ext_in. intros k Hk. simpl in Hk. destruct (isT _); auto.
  apply partitions_fuel_enough; rewrite length_skipn; destruct k; simpl; lia.
Qed.

Lemma partitions_last_fuel_enough isT f1 : forall f2 x,
  length x <= f1 -> length x <= f2 ->
  partitions_last_fuel isT f1 x = partitions_last_fuel isT f2 x.
Proof.
  induction f1 as [|f1 IH]; intros [|f2] [|a x] H1 H2; simpl in *; try lia; auto.
  apply sum_range_ext_in. intros i Hi.
  simpl in Hi. destruct (isT _); auto.
  apply IH; rewrite length_firstn; cbn [length]; lia.
Qed.

Lemma partitions_last_eq isT x :
  partitions_last isT x =
  match x with
  | [] => 1%Z
  | _ => sum_range 0 (length x) (fun i =>
           if isT (skipn i x) then partitions_last isT (firstn i x) else 0%Z)
  end.
Proof.
  unfold partitions_last. destruct x as [|a x]; [reflexivity|]. simpl length at 1. simpl.
  apply sum_range_ext_in. intros i Hi. simpl in Hi. destruct (isT _); auto.
  apply partitions_last_fuel_enough; rewrite length_firstn; cbn [length]; lia.
Qed.

Lemma partitions_nonempty isT x :
  x <> [] ->
  partitions isT x = sum_range 1 (length x) (fun k =>
    if isT (firstn k x) then partitions isT (skipn k x) else 0%Z).
Proof. intro Hx. rewrite partitions_eq. destruct x; [congruence|reflexivity]. Qed.

Lemma partitions_last_nonempty isT x :
  x <> [] ->
  partitions_last isT x = sum_range 0 (length x) (fun i =>
    if isT (skipn i x) then partitions_last isT (firstn i x) else 0%Z).
Proof. intro Hx. rewrite partitions_last_eq. destruct x; [congruence|reflexivity]. Qed.

(* ------------------------------------------------------------------ *)
(** * Proofs: the dynamic program counts the partitions modulo 2^64 *)

Lemma u64_modulus_pos : (0 < u64_modulus)%Z.
Proof. unfold u64_modulus. lia. Qed.

Lemma nth_list_set {A} (l : list A) k x j d :
  nth j (list_set l k x) d =
  if Nat.eqb j k then (if j <? length l then x else d) else nth j l d.
Proof.
  revert k j; induction l as [|y l IH]; intros [|k] [|j]; simpl; auto.
  destruct (j =? k); reflexivity.
Qed.

Lemma firstn_S_nth (w : list nat) e :
  e < length w -> firstn (S e) w = firstn e w ++ [nth e w 0].
Proof.
  revert e; induction w as [|a w IH]; intros [|e] H; simpl in *; try lia; auto.
  rewrite IH by lia. reflexivity.
Qed.

Lemma skipn_cons_nth (w : list nat) e x rest :
  skipn e w = x :: rest -> e < length w /\ nth e w 0 = x /\ skipn (S e) w = rest.
Proof.
  revert e; induction w as [|a w IH]; intros [|e] H; simpl in *; try discriminate.
  - injection H as -> ->. split; [lia|auto].
  - apply IH in H as (? & ? & ?). split; [lia|auto].
Qed.

Lemma sub_app (w : list nat) s e k :
  s <= e <= k -> k <= length w ->
  skipn s (firstn k w) = skipn s (firstn e w) ++ skipn e (firstn k w).
Proof.
  intros H Hk. rewrite <- (firstn_skipn e (firstn k w)) at 1.
  rewrite firstn_firstn. replace (Nat.min e k) with e by lia.
  rewrite skipn_app, length_firstn. replace (s - Nat.min e (length w)) with 0 by lia.
  reflexivity.
Qed.

Lemma sub_snoc (w : list nat) s e :
  s <= e < length w ->
  skipn s (firstn (S e) w) = skipn s (firstn e w) ++ [nth e w 0].
Proof.
  intro H. rewrite firstn_S_nth by lia. rewrite skipn_app, length_firstn.
  replace (s - Nat.min e (length w)) with 0 by lia. reflexivity.
Qed.

Lemma sub_empty (w : list nat) s : skipn s (firstn s w) = [].
Proof. apply skipn_all2, firstn_le_length. Qed.

Section DpCorrect.
Variables (N : nat) (isP isT : list nat -> bool) (w : list nat).
Hypothesis Hw : in_alphabet N w.
Hypothesis HTP : forall u, isT u = true -> isP u = true.
Hypothesis HPc : forall u y, isP (u ++ y) = true -> isP u = true.

Local Abbreviation n := (length w).
Local Abbreviation M := u64_modulus.
Local Abbreviation sub i k := (skipn i (firstn k w)).
Local Abbreviation Lv i := (partitions_last isT (firstn i w)).
(** The value of [reach[k]] before the start prefix [s] is processed. *)
Local Abbreviation V s k :=
  ((if Nat.eqb k 0 then 1 else 0) +
   sum_range 0 (Nat.min s k) (fun i => if isT (sub i k) then Lv i else 0))%Z.

Lemma V_diag k : k <= n -> V k k = Lv k.
Proof.
  intro Hk. rewrite Nat.min_id. destruct k as [|k]; [reflexivity|].
  assert (Hne : firstn (S k) w <> []).
  { intro E. apply (f_equal (@length _)) in E. rewrite length_firstn in E.
    cbn [length] in E. lia. }
  rewrite (partitions_last_nonempty isT _ Hne), length_firstn.
  replace (Nat.min (S k) n) with (S k) by lia. simpl (Nat.eqb (S k) 0).
  rewrite Z.add_0_l. apply sum_range_ext_in. intros i Hi.
  destruct (isT _); auto. rewrite firstn_firstn. f_equal. f_equal. lia.
Qed.

Lemma V_step s k :
  V (S s) k = (V s k + if Nat.ltb s k && isT (sub s k) then Lv s else 0)%Z.
Proof.
  destruct (Nat.ltb_spec s k) as [Hsk|Hsk].
  - replace (Nat.min (S s) k) with (S s) by lia. replace (Nat.min s k) with s by lia.
    rewrite sum_range_S. cbn [andb]. simpl (0 + s)%nat. lia.
  - replace (Nat.min (S s) k) with k by lia. replace (Nat.min s k) with k by lia.
    cbn [andb]. lia.
Qed.

Lemma inner_correct c0 s (f : nat -> Z) : forall rest e v reach,
  s <= e <= n -> rest = skipn e w -> v = sub s e ->
  length reach = S n -> nth s reach 0%Z = (c0 mod M)%Z ->
  (forall k, k <= n -> nth k reach 0%Z =
     ((f k + if Nat.ltb s k && Nat.leb k e && isT (sub s k) then c0 else 0) mod M)%Z) ->
  exists reach',
    count_inner (lang_child N isP) (lang_terminal isT) v s e rest reach = Some reach' /\
    length reach' = S n /\
    forall k, k <= n -> nth k reach' 0%Z =
      ((f k + if Nat.ltb s k && isT (sub s k) then c0 else 0) mod M)%Z.
Proof.
  induction rest as [|x rest IH]; intros e v reach He Hrest Hv Hlen Hs Hinv.
  - assert (e = n).
    { destruct (Nat.eq_dec e n); auto. exfalso.
      assert (length (skipn e w) = 0) by (rewrite <- Hrest; reflexivity).
      rewrite length_skipn in *. lia. }
    subst e. exists reach. split; [reflexivity|]. split; auto.
    intros k Hk. rewrite Hinv by auto.
    replace (k <=? n) with true by (symmetry; apply Nat.leb_le; lia).
    now rewrite andb_true_r.
  - symmetry in Hrest. apply skipn_cons_nth in Hrest as (Hen & Hx & Hrest). subst rest.
    assert (HxN : x < N).
    { subst x. unfold in_alphabet in Hw. rewrite Forall_forall in Hw. apply Hw, nth_In. lia. }
    assert (Hsub : v ++ [x] = sub s (S e)) by (subst; rewrite sub_snoc by lia; reflexivity).
    cbn [count_inner]. unfold lang_child at 1.
    replace (x <? N) with true by (symmetry; apply Nat.ltb_lt; lia).
    destruct (isP (v ++ [x])) eqn:EP.
    + cbn beta iota. unfold lang_terminal at 1. cbn beta iota.
      destruct (isT (v ++ [x])) eqn:ET.
      * destruct (vec_get_lt reach (S e)) as [r_end Hre]; [lia|].
        destruct (vec_get_lt reach s) as [r_start Hrs]; [lia|].
        rewrite Hre, Hrs, vec_set_some by lia.
        unfold vec_get in Hre, Hrs.
        apply (@nth_error_nth Z _ _ _ 0%Z) in Hre, Hrs. subst r_end r_start.
        apply IH; [lia | reflexivity | exact Hsub | | |].
        -- rewrite length_list_set. auto.
        -- rewrite nth_list_set. replace (s =? S e) with false by (symmetry; apply Nat.eqb_neq; lia).
           exact Hs.
        -- intros k Hk. rewrite nth_list_set.
           destruct (Nat.eqb_spec k (S e)) as [->|Hke].
           ++ rewrite Hlen. replace (S e <? S n) with true by (symmetry; apply Nat.ltb_lt; lia).
              rewrite (Hinv (S e)) by lia. rewrite Hs.
              replace (S e <=? e) with false by (symmetry; apply Nat.leb_gt; lia).
              replace (s <? S e) with true by (symmetry; apply Nat.ltb_lt; lia).
              replace (S e <=? S e) with true by (symmetry; apply Nat.leb_le; lia).
              rewrite <- Hsub, ET. cbn [andb]. unfold u64_add.
              rewrite Z.add_mod_idemp_l, Z.add_mod_idemp_r by (pose proof u64_modulus_pos; lia).
              f_equal. lia.
           ++ rewrite Hinv by lia. do 3 f_equal.
              destruct (Nat.leb_spec k e), (Nat.leb_spec k (S e)); auto; lia.
      * apply IH; [lia | reflexivity | exact Hsub | exact Hlen | exact Hs |].
        intros k Hk. rewrite Hinv by auto. do 3 f_equal.
        destruct (Nat.eqb_spec k (S e)) as [->|Hke].
        -- rewrite <- Hsub, ET. rewrite !andb_false_r. reflexivity.
        -- destruct (Nat.leb_spec k e), (Nat.leb_spec k (S e)); auto; lia.
    + exists reach. split; [reflexivity|]. split; auto.
      intros k Hk. rewrite Hinv by auto. do 3 f_equal.
      destruct (Nat.leb_spec k e); [rewrite andb_true_r; reflexivity|].
      destruct (s <? k); simpl; auto.
      destruct (isT (sub s k)) eqn:ET; auto.
      exfalso. apply HTP in ET. rewrite (sub_app w s (S e) k) in ET by lia.
      apply HPc in ET. rewrite <- Hsub in ET. congruence.
Qed.

Lemma outer_correct : forall rest s reach,
  s <= n -> rest = skipn s w ->
  length reach = S n ->
  (forall k, k <= n -> nth k reach 0%Z = (V s k mod M)%Z) ->
  exists reach',
    count_outer (lang_child N isP) (lang_terminal isT) [] s rest reach = Some reach' /\
    length reach' = S n /\
    forall k, k <= n -> nth k reach' 0%Z = (V n k mod M)%Z.
Proof.
  induction rest as [|x rest IH]; intros s reach Hs Hrest Hlen Hinv.
  - assert (s = n).
    { destruct (Nat.eq_dec s n); auto. exfalso.
      assert (length (skipn s w) = 0) by (rewrite <- Hrest; reflexivity).
      rewrite length_skipn in *. lia. }
    subst s. exists reach. auto.
  - assert (Hsk : skipn s w = x :: rest) by auto.
    symmetry in Hrest. apply skipn_cons_nth in Hrest as (Hsn & _ & Hrest). subst rest.
    cbn [count_outer].
    destruct (vec_get_lt reach s) as [r Hr]; [lia|]. rewrite Hr.
    unfold vec_get in Hr. apply (@nth_error_nth Z _ _ _ 0%Z) in Hr.
    assert (Hrv : r = (Lv s mod M)%Z) by (rewrite <- Hr, Hinv, V_diag by lia; reflexivity).
    destruct (Z.eqb_spec r 0) as [Hr0|Hr0].
    + apply IH; [lia | reflexivity | exact Hlen |].
      intros k Hk. rewrite Hinv by auto. rewrite V_step.
      destruct (Nat.ltb s k && isT (sub s k)); [|f_equal; lia].
      rewrite <- (Z.add_mod_idemp_r (V s k) (Lv s) M) by (pose proof u64_modulus_pos; lia).
      rewrite <- Hrv, Hr0, Z.add_0_r. reflexivity.
    + destruct (inner_correct (Lv s) s (fun k => V s k) (x :: skipn (S s) w) s [] reach)
        as (reach1 & Hin & Hlen1 & Hinv1).
      * lia.
      * symmetry. exact Hsk.
      * symmetry. apply sub_empty.
      * exact Hlen.
      * rewrite Hr. exact Hrv.
      * intros k Hk. rewrite Hinv by auto.
        destruct (Nat.ltb_spec s k), (Nat.leb_spec k s); try lia; cbn [andb]; f_equal; lia.
      * rewrite Hin. apply IH; [lia | reflexivity | exact Hlen1 |].
        intros k Hk. rewrite Hinv1, V_step by auto. reflexivity.
Qed.

(** The query on a pattern language yields the number of partitions of the
    whole target, modulo 2^64. *)
Lemma count_dp_lang_correct :
  count_dp (lang_child N isP) (lang_terminal isT) [] w =
  Some (partitions_last isT w mod M)%Z.
Proof.
  unfold count_dp. rewrite vec_set_some by (rewrite repeat_length; lia).
  destruct (outer_correct w 0 (list_set (repeat 0%Z (S n)) 0 1%Z))
    as (reach & Ho & Hlen & Hinv).
  - lia.
  - reflexivity.
  - rewrite length_list_set, repeat_length. reflexivity.
  - intros k Hk. simpl list_set. destruct k as [|k]; [reflexivity|].
    cbn [nth]. rewrite nth_repeat. reflexivity.
  - cbn beta iota. rewrite Ho. unfold vec_get.
    rewrite (nth_error_nth' reach 0%Z) by lia. f_equal.
    rewrite Hinv, V_diag, firstn_all by lia. reflexivity.
Qed.

End DpCorrect.

(* ------------------------------------------------------------------ *)
(** * Proofs: counting partitions by the first or by the last piece *)

Lemma sum_range_zero lo n : sum_range lo n (fun _ => 0%Z) = 0%Z.
Proof. induction n as [|n IH]; [reflexivity|]. rewrite sum_range_S, IH. reflexivity. Qed.

Lemma sum_range_if (b : bool) lo n f :
  (if b then sum_range lo n f else 0%Z) = sum_range lo n (fun i => if b then f i else 0%Z).
Proof. destruct b; [reflexivity|]. symmetry. apply sum_range_zero. Qed.

Lemma sum_range_triangle (g : nat -> nat -> Z) m :
  sum_range 1 m (fun k => sum_range k (S m - k) (g k)) =
  sum_range 1 m (fun j => sum_range 1 j (fun k => g k j)).
Proof.
  induction m as [|m IH]; [reflexivity|].
  rewrite (sum_range_S 1 m (fun k => sum_range k (S (S m) - k) (g k))).
  rewrite (sum_range_S 1 m (fun j => sum_range 1 j (fun k => g k j))).
  rewrite (sum_range_ext_in 1 m (fun k => sum_range k (S (S m) - k) (g k))
             (fun k => (sum_range k (S m - k) (g k) + g k (S m))%Z)).
  2: { intros k Hk. replace (S (S m) - k) with (S (S m - k)) by lia.
       rewrite sum_range_S. f_equal. f_equal. lia. }
  rewrite sum_range_add, IH.
  replace (S (S m) - (1 + m)) with 1 by lia.
  replace (1 + m) with (S m) by lia.
  rewrite (sum_range_S 1 m (fun k => g k (S m))).
  replace (sum_range (S m) 1 (g (S m))) with (g (S m) (S m)).
  2: { unfold sum_range. simpl. lia. }
  replace (1 + m) with (S m) by lia. lia.
Qed.

(** The brute force by the first piece and the count by the last piece agree. *)
Lemma partitions_last_first isT : forall x, partitions_last isT x = partitions isT x.
Proof.
  intro x. remember (length x) as n eqn:Hn. revert x Hn.
  induction n as [n IHn] using lt_wf_ind. intros x Hn.
  destruct n as [|m].
  - destruct x; [reflexivity | discriminate].
  - assert (Hne : x <> []) by (intros ->; discriminate).
    rewrite partitions_last_nonempty, partitions_nonempty by auto. rewrite <- Hn.
    rewrite sum_range_first, sum_range_S.
    rewrite firstn_O, skipn_O. replace (1 + m) with (S m) by lia.
    rewrite firstn_all2, skipn_all2 by lia.
    set (F := partitions isT). set (L := partitions_last isT).
    set (g := fun k j => if isT (firstn k x) then
                (if isT (skipn j x) then F (firstn (j - k) (skipn k x)) else 0%Z) else 0%Z).
    assert (HA : sum_range 1 m (fun j => if isT (skipn j x) then L (firstn j x) else 0%Z) =
                 sum_range 1 m (fun j => sum_range 1 j (fun k => g k j))).
    { apply sum_range_ext_in. intros j Hj.
      unfold L. rewrite (IHn j) by (rewrite ?length_firstn; lia).
      assert (Hj0 : firstn j x <> []).
      { intro E. apply (f_equal (@length _)) in E. rewrite length_firstn in E.
        cbn [length] in E. lia. }
      fold F. unfold F at 1. rewrite (partitions_nonempty _ _ Hj0), length_firstn.
      replace (Nat.min j (length x)) with j by lia.
      rewrite sum_range_if. apply sum_range_ext_in. intros k Hk. unfold g.
      rewrite firstn_firstn, skipn_firstn_comm. replace (Nat.min k j) with k by lia.
      destruct (isT (skipn j x)), (isT (firstn k x)); reflexivity. }
    assert (HB : sum_range 1 m (fun k => if isT (firstn k x) then F (skipn k x) else 0%Z) =
                 sum_range 1 m (fun k => sum_range k (S m - k) (g k))).
    { apply sum_range_ext_in. intros k Hk.
      unfold F. rewrite <- (IHn (S m - k)) by (rewrite ?length_skipn; lia).
      assert (Hk0 : skipn k x <> []).
      { intro E. apply (f_equal (@length _)) in E. rewrite length_skipn in E.
        cbn [length] in E. lia. }
      rewrite (partitions_last_nonempty _ _ Hk0), length_skipn, <- Hn.
      rewrite sum_range_if, (sum_range_shift k (S m - k)).
      apply sum_range_ext_in. intros i Hi. unfold g.
      rewrite skipn_skipn. replace (k + i - k) with i by lia. rewrite (Nat.add_comm k i).
      rewrite (IHn i) by (rewrite ?length_firstn, ?length_skipn; lia).
      destruct (isT (firstn k x)), (isT (skipn (i + k) x)); reflexivity. }
    fold L. rewrite HA, HB, sum_range_triangle.
    unfold L, F. rewrite !partitions_last_eq, partitions_eq. simpl. lia.
Qed.

(** The query on a pattern set yields the brute-force partition count, modulo 2^64. *)
Lemma count_lang_correct N pats w :
  in_alphabet N w ->
  count_lang N pats w = Some (partitions (in_patterns pats) w mod u64_modulus)%Z.
Proof.
  intro Hw. unfold count_lang.
  rewrite (count_dp_lang_correct N (lang_isP pats) (in_patterns pats) w Hw).
  - rewrite partitions_last_first. reflexivity.
  - intros u Hu. apply in_patterns_spec in Hu. apply lang_isP_spec.
    exists u. split; auto. exists []. now rewrite app_nil_r.
  - intros u y Hu. apply lang_isP_spec in Hu as (p & Hp & x & Hx).
    apply lang_isP_spec. exists p. split; auto. exists (y ++ x). now rewrite app_assoc.
Qed.

(* ------------------------------------------------------------------ *)
(** * Proofs: the shard helper *)

Lemma concat_list_set_perm {A} (l : list (list A)) k s ys :
  nth_error l k = Some s -> Permutation (concat (list_set l k (s ++ ys))) (concat l ++ ys).
Proof.
  revert k; induction l as [|a l IH]; intros [|k] Hk; simpl in *; try discriminate.
  - injection Hk as ->. rewrite <- !app_assoc. apply Permutation_app_head.
    apply Permutation_app_comm.
  - rewrite <- app_assoc. apply Permutation_app_head. auto.
Qed.

Lemma route_loop_spec {I} P (inputs : list I) : 0 < P ->
  forall i shards, length shards = P ->
  exists res, route_loop P i inputs shards = Some res /\ length res = P /\
    (forall k, k < P -> nth k res [] = nth k shards [] ++
       map snd (filter (fun ix => fst ix mod P =? k) (combine (seq i (length inputs)) inputs))) /\
    Permutation (concat res) (concat shards ++ inputs).
Proof.
  intro HP. induction inputs as [|x rest IH]; intros i shards Hlen.
  - exists shards. repeat split; auto.
    + intros k _. simpl. now rewrite app_nil_r.
    + now rewrite app_nil_r.
  - cbn [route_loop]. unfold usize_rem.
    replace (P =? 0) with false by (symmetry; apply Nat.eqb_neq; lia).
    assert (Hm : i mod P < length shards) by (rewrite Hlen; apply Nat.mod_upper_bound; lia).
    destruct (vec_get_lt shards (i mod P) Hm) as [s Hs]. rewrite Hs.
    rewrite vec_set_some by exact Hm.
    destruct (IH (S i) (list_set shards (i mod P) (s ++ [x])))
      as (res & Hres & Hl & Hn & Hp); [now rewrite length_list_set|].
    exists res. repeat split; auto.
    + intros k Hk. rewrite Hn by exact Hk. rewrite nth_list_set.
      cbn [length seq combine filter fst snd].
      unfold vec_get in Hs. apply (nth_error_nth _ _ []) in Hs.
      destruct (Nat.eqb_spec k (i mod P)) as [E|E].
      * subst k. rewrite Nat.eqb_refl.
        replace (i mod P <? length shards) with true by (symmetry; apply Nat.ltb_lt; exact Hm).
        rewrite Hs. simpl. now rewrite <- app_assoc.
      * replace (i mod P =? k) with false by (symmetry; apply Nat.eqb_neq; auto). reflexivity.
    + rewrite Hp. unfold vec_get in Hs.
      rewrite (concat_list_set_perm shards (i mod P) s [x] Hs).
      now rewrite <- app_assoc.
Qed.

Lemma concat_repeat_nil {A} n : concat (repeat ([] : list A) n) = [].
Proof. induction n; simpl; auto. Qed.

Lemma make_shards_spec {I} P (inputs : list I) : 0 < P ->
  exists shards, make_shards P inputs = Some shards /\ length shards = P /\
    (forall k, k < P -> nth k shards [] = round_robin_shard P inputs k) /\
    Permutation (concat shards) inputs.
Proof.
  intro HP. unfold make_shards.
  destruct (route_loop_spec P inputs HP 0 (repeat [] P)) as (res & Hr & Hl & Hn & Hp);
    [apply repeat_length|].
  exists res. repeat split; auto.
  - intros k Hk. rewrite Hn by exact Hk. rewrite nth_repeat. reflexivity.
  - now rewrite Hp, concat_repeat_nil.
Qed.

Lemma filter_all_false {A} (g : A -> bool) l : (forall x, In x l -> g x = false) -> filter g l = [].
Proof.
  induction l as [|a l IH]; intro H; simpl; auto.
  rewrite H by (left; auto). apply IH. intros x Hx. apply H. right; auto.
Qed.

Lemma round_robin_shard_beyond {I} P (inputs : list I) k :
  length inputs <= k < P -> round_robin_shard P inputs k = [].
Proof.
  intros Hk. unfold round_robin_shard. rewrite filter_all_false; auto.
  intros [j x] Hin. apply in_combine_l, in_seq in Hin. simpl.
  apply Nat.eqb_neq. rewrite Nat.mod_small by lia. lia.
Qed.

Section Reduce.
Context {A : Type}.
Variables (op : A -> A -> A) (e : A).
Hypothesis op_comm : forall a b, op a b = op b a.
Hypothesis op_assoc : forall a b c, op a (op b c) = op (op a b) c.

Lemma fold_right_perm l l' : Permutation l l' -> fold_right op e l = fold_right op e l'.
Proof.
  induction 1 as [|x l l' _ IH|x y l|l l' l'' _ IH1 _ IH2]; simpl.
  - reflexivity.
  - now rewrite IH.
  - rewrite !op_assoc, (op_comm y x). reflexivity.
  - now rewrite IH1, IH2.
Qed.
End Reduce.

Lemma hom_fold {I Cap O} (op : O -> O -> O) (e : O) (f : list I -> Cap -> O) c :
  f [] c = e -> (forall l1 l2, f (l1 ++ l2) c = op (f l1 c) (f l2 c)) ->
  forall l, f l c = fold_right op e (map (fun x => f [x] c) l).
Proof.
  intros Hnil Happ. induction l as [|x l IH]; simpl; auto.
  rewrite <- IH, <- Happ. reflexivity.
Qed.

Lemma hom_concat {I Cap O} (op : O -> O -> O) (e : O) (f : list I -> Cap -> O) c :
  f [] c = e -> (forall l1 l2, f (l1 ++ l2) c = op (f l1 c) (f l2 c)) ->
  forall ls, fold_right op e (map (fun s => f s c) ls) = f (concat ls) c.
Proof.
  intros Hnil Happ. induction ls as [|s ls IH]; simpl; auto.
  rewrite IH, Happ. reflexivity.
Qed.

(* ------------------------------------------------------------------ *)
(** * Proofs: helpers for the trie's properties *)

Lemma map_index_nat (w : list nat) : map index w = w.
Proof. induction w as [|c w IH]; simpl; auto. now rewrite IH. Qed.

Lemma map_map_index_nat (ws : list (list nat)) : map (map index) ws = ws.
Proof. induction ws as [|w ws IH]; simpl; auto. now rewrite map_index_nat, IH. Qed.

Lemma sum_range_nonneg lo n f : (forall i, (0 <= f i)%Z) -> (0 <= sum_range lo n f)%Z.
Proof.
  intro Hf. induction n as [|n IH]; [rewrite sum_range_0; lia|].
  rewrite sum_range_S. specialize (Hf (lo + n)). lia.
Qed.

Lemma partitions_fuel_nonneg isT fuel : forall x, (0 <= partitions_fuel isT fuel x)%Z.
Proof.
  induction fuel as [|f IH]; intros [|a x]; simpl; try lia.
  apply sum_range_nonneg. intro i. destruct (isT _); [apply IH | lia].
Qed.

Lemma partitions_nonneg isT x : (0 <= partitions isT x)%Z.
Proof. apply partitions_fuel_nonneg. Qed.

(** A non-empty word that is a pattern has at least the one-piece partition. *)
Lemma partitions_pattern isT x : x <> [] -> isT x = true -> (1 <= partitions isT x)%Z.
Proof.
  intros Hx Ht. rewrite partitions_nonempty by exact Hx.
  destruct (length x) as [|m] eqn:Hl; [destruct x; [congruence | discriminate]|].
  rewrite sum_range_S. replace (1 + m) with (length x) by lia.
  rewrite firstn_all, skipn_all, Ht.
  assert (H0 : (0 <= sum_range 1 m (fun k =>
                 if isT (firstn k x) then partitions isT (skipn k x) else 0%Z))%Z).
  { apply sum_range_nonneg. intro i. destruct (isT (firstn i x)); [apply partitions_nonneg | lia]. }
  unfold partitions at 2. simpl. lia.
Qed.

(** Two pattern sets that agree on every non-empty word give the same query. *)
Lemma count_lang_ext N A B w :
  (forall u, u <> [] -> lang_isP A u = lang_isP B u /\ in_patterns A u = in_patterns B u) ->
  count_lang N A w = count_lang N B w.
Proof.
  intro H. unfold count_lang.
  apply count_dp_sim with (R := eq); [reflexivity|].
  intros a b c <-. unfold lang_child.
  destruct (c <? N); auto.
  assert (Hne : a ++ [c] <> []) by (destruct a; discriminate).
  destruct (H _ Hne) as [H1 H2]. rewrite H1.
  destruct (lang_isP B (a ++ [c])); auto. split; auto.
  unfold lang_terminal. now rewrite H2.
Qed.

Lemma lang_isP_same A B u : (forall p, In p A <-> In p B) -> lang_isP A u = lang_isP B u.
Proof.
  intro H. apply eq_true_iff_eq. rewrite !lang_isP_spec.
  split; intros (p & Hp & Hx); exists p; split; auto; apply H; auto.
Qed.

Lemma in_patterns_same A B u : (forall p, In p A <-> In p B) -> in_patterns A u = in_patterns B u.
Proof. intro H. apply eq_true_iff_eq. rewrite !in_patterns_spec. apply H. Qed.

Lemma in_map_same {T} `{TrieElement T} (ps ps' : list (list T)) :
  (forall p, In p ps <-> In p ps') ->
  forall q, In q (map (map index) ps) <-> In q (map (map index) ps').
Proof.
  intros Hs q. rewrite !in_map_iff.
  split; intros (x & Hx & Hin); exists x; split; auto; apply Hs; auto.
Qed.

Lemma Forall_same {X} (P : X -> Prop) (l l' : list X) :
  (forall x, In x l <-> In x l') -> Forall P l -> Forall P l'.
Proof. intros H Hl. apply Forall_forall. intros x Hx. rewrite Forall_forall in Hl. apply Hl, H, Hx. Qed.

Lemma from_iter_count_lang {T} `{TrieElement T} N (ps : list (list T)) w :
  from_iter_count N ps w =
  match from_iter N ps with
  | Some _ => count_lang N (map (map index) ps) (map index w)
  | None => None
  end.
Proof.
  unfold from_iter_count. destruct (from_iter N ps) as [t|] eqn:E; auto.
  apply count_from_iter. exact E.
Qed.

(** The query on the empty target: the loops do not run, the answer is [reach[0] = 1]. *)
Lemma count_empty_word {T} `{TrieElement T} (t : Trie) :
  count_all_word_arrangements t ([] : list T) = Some 1%Z.
Proof. reflexivity. Qed.

(* ------------------------------------------------------------------ *)
(** * Properties of the trie and of the shard helper *)

(** C1 (amended).  For a trie built by [from_iter] from patterns over the
    dense alphabet [0, N) and a target over that alphabet,
    [count_all_word_arrangements] returns, for a non-empty target, the number
    of ways to write it as a concatenation of one or more patterns (the
    brute-force count [arrangements]) reduced modulo 2^64 by the u64
    additions, and 1 for the empty target. *)
Theorem count_all_word_arrangements_correct N (pats : list (list nat)) t (w : list nat) :
  from_iter N pats = Some t -> in_alphabet N w ->
  count_all_word_arrangements t w =
    Some (match w with [] => 1%Z | _ :: _ => (arrangements pats w mod u64_modulus)%Z end).
Proof.
  intros Ht Hw. rewrite (count_from_iter N pats t w Ht), map_index_nat.
  rewrite map_map_index_nat.
  rewrite count_lang_correct by exact Hw.
  destruct w; reflexivity.
Qed.

Lemma count_all_word_arrangements_correct_witness :
  exists t, from_iter 2 [[0]; [1]; [0; 1]] = Some t /\
  count_all_word_arrangements t [0; 1] =
    Some (Z.modulo (arrangements [[0]; [1]; [0; 1]] [0; 1]) u64_modulus).
Proof.
  destruct (from_iter 2 [[0]; [1]; [0; 1]]) as [t|] eqn:E.
  - exists t. split; [reflexivity|].
    apply (count_all_word_arrangements_correct 2 [[0]; [1]; [0; 1]] t [0; 1] E).
    repeat constructor.
  - vm_compute in E. discriminate E.
Defined.

(** C1 (counterexample).  The empty target gets 1 although no concatenation
    of one or more patterns is empty; and with the patterns 0, 00, ..., 0^65
    the target 0^65, itself a pattern, has at least one partition (2^64 in
    fact) while the u64 count wraps to 0. *)
Lemma count_all_word_arrangements_counterexample :
  (from_iter_count 1 [[0]] [] = Some 1%Z /\ arrangements [[0]] [] = 0%Z) /\
  (from_iter_count 1 (map (fun k => repeat 0 (S k)) (seq 0 65)) (repeat 0 65) = Some 0%Z /\
   Z.le 1 (arrangements (map (fun k => repeat 0 (S k)) (seq 0 65)) (repeat 0 65))).
Proof.
  split; [split; reflexivity|]. split; [vm_compute; reflexivity|].
  change (arrangements (map (fun k => repeat 0 (S k)) (seq 0 65)) (repeat 0 65))
    with (partitions (in_patterns (map (fun k => repeat 0 (S k)) (seq 0 65))) (repeat 0 65)).
  apply partitions_pattern; [discriminate|].
  apply in_patterns_spec, in_map_iff. exists 64. split; [reflexivity|].
  apply in_seq. lia.
Qed.

(** C2.  For a reduction [f] that is a homomorphism from concatenation to a
    commutative and associative [op] with [f [] = e], folding the outputs
    yielded by [shard_and_solve_concurrently], in whatever order they arrive,
    gives [f] on the whole input, for every shard count [P >= 1], every input
    and every capture; and some sequence of outputs is yielded. *)
Theorem shard_and_solve_reduce {I Cap O} (op : O -> O -> O) (e : O) (f : list I -> Cap -> O) :
  (forall a b, op a b = op b a) ->
  (forall a b c, op a (op b c) = op (op a b) c) ->
  (forall capture, f [] capture = e) ->
  (forall l1 l2 capture, f (l1 ++ l2) capture = op (f l1 capture) (f l2 capture)) ->
  forall P inputs capture, 0 < P ->
  (exists received, shard_and_solve_concurrently P inputs capture f received) /\
  (forall received, shard_and_solve_concurrently P inputs capture f received ->
     fold_right op e received = f inputs capture).
Proof.
  intros Hc Ha Hn Happ P inputs capture HP.
  destruct (make_shards_spec P inputs HP) as (shards & Hs & _ & _ & Hp).
  unfold shard_and_solve_concurrently, shard_outputs. rewrite Hs. split.
  - exists (map (fun shard => f shard capture) shards), (map (fun shard => f shard capture) shards).
    split; [reflexivity | apply Permutation_refl].
  - intros received (outs & Ho & Hperm). injection Ho as <-.
    rewrite <- (fold_right_perm op e Hc Ha _ _ Hperm).
    rewrite (hom_concat op e f capture (Hn capture) (fun l1 l2 => Happ l1 l2 capture)).
    rewrite (hom_fold op e f capture (Hn capture) (fun l1 l2 => Happ l1 l2 capture) (concat shards)).
    rewrite (hom_fold op e f capture (Hn capture) (fun l1 l2 => Happ l1 l2 capture) inputs).
    apply fold_right_perm; auto. apply Permutation_map. exact Hp.
Qed.

Lemma shard_and_solve_reduce_witness :
  (exists received, shard_and_solve_concurrently 2 [1; 2; 3] tt (fun l _ => list_sum l) received) /\
  (forall received, shard_and_solve_concurrently 2 [1; 2; 3] tt (fun l _ => list_sum l) received ->
     fold_right Nat.add 0 received = list_sum [1; 2; 3]).
Proof.
  apply (shard_and_solve_reduce Nat.add 0 (fun (l : list nat) (_ : unit) => list_sum l)).
  - exact Nat.add_comm.
  - exact Nat.add_assoc.
  - reflexivity.
  - intros l1 l2 _. apply list_sum_app.
  - lia.
Defined.

(** C3.  With [P >= 1] shards, the inputs are split into exactly [P] shards,
    those of index at least the number of inputs being empty, and every
    sequence of yielded outputs has length [P] and is a rearrangement of [f]
    applied once to each shard (some such sequence is yielded). *)
Theorem shard_and_solve_outputs {I Cap O} P (inputs : list I) (capture : Cap)
    (f : list I -> Cap -> O) :
  0 < P ->
  exists shards, make_shards P inputs = Some shards /\ length shards = P /\
    (forall k, length inputs <= k -> nth k shards [] = []) /\
    (exists received, shard_and_solve_concurrently P inputs capture f received) /\
    (forall received, shard_and_solve_concurrently P inputs capture f received ->
       length received = P /\ Permutation received (map (fun shard => f shard capture) shards)).
Proof.
  intro HP. destruct (make_shards_spec P inputs HP) as (shards & Hs & Hl & Hn & _).
  exists shards. split; [exact Hs|]. split; [exact Hl|]. split.
  - intros k Hk. destruct (Nat.lt_ge_cases k P) as [HkP|HkP].
    + rewrite Hn by exact HkP. apply round_robin_shard_beyond. lia.
    + apply nth_overflow. lia.
  - unfold shard_and_solve_concurrently, shard_outputs. rewrite Hs. split.
    + exists (map (fun shard => f shard capture) shards), (map (fun shard => f shard capture) shards).
      split; [reflexivity | apply Permutation_refl].
    + intros received (outs & Ho & Hp). injection Ho as <-. split.
      * rewrite <- (Permutation_length Hp), length_map. exact Hl.
      * symmetry. exact Hp.
Qed.

Lemma shard_and_solve_outputs_witness :
  exists shards, make_shards 4 [1; 2] = Some shards /\ length shards = 4 /\
    (forall k, length [1; 2] <= k -> nth k shards [] = []) /\
    (exists received, shard_and_solve_concurrently 4 [1; 2] tt (fun l _ => list_sum l) received) /\
    (forall received, shard_and_solve_concurrently 4 [1; 2] tt (fun l _ => list_sum l) received ->
       length received = 4 /\ Permutation received (map (fun shard => list_sum shard) shards)).
Proof.
  apply (shard_and_solve_outputs 4 [1; 2] tt (fun (l : list nat) (_ : unit) => list_sum l)). lia.
Defined.

(** C4.  With [P >= 1] shards, [make_shards] (a function of [P] and the
    inputs, hence the same on every run) puts in shard [k] exactly the items
    whose index [i] has [i mod P = k], in input order. *)
Theorem shard_round_robin {I} P (inputs : list I) :
  0 < P ->
  exists shards, make_shards P inputs = Some shards /\ length shards = P /\
    forall k, k < P -> nth k shards [] = round_robin_shard P inputs k.
Proof.
  intro HP. destruct (make_shards_spec P inputs HP) as (shards & Hs & Hl & Hn & _).
  exists shards. auto.
Qed.

Lemma shard_round_robin_witness :
  exists shards, make_shards 3 [10; 11; 12; 13; 14] = Some shards /\ length shards = 3 /\
    forall k, k < 3 -> nth k shards [] = round_robin_shard 3 [10; 11; 12; 13; 14] k.
Proof. apply (shard_round_robin 3 [10; 11; 12; 13; 14]). lia. Defined.

(** C5.  The worked examples: with the stripe patterns r, wr, b, g, bwu, rb,
    gb, br the design brwrr has 2 arrangements and bbrgwb none; with the
    patterns a, b, ab over the alphabet {a, b} (a = 0, b = 1), ab has 2. *)
Theorem arrangement_examples :
  towel_count ["r"; "wr"; "b"; "g"; "bwu"; "rb"; "gb"; "br"]%string "brwrr"%string = Some 2%Z /\
  towel_count ["r"; "wr"; "b"; "g"; "bwu"; "rb"; "gb"; "br"]%string "bbrgwb"%string = Some 0%Z /\
  from_iter_count 2 [[0]; [1]; [0; 1]] [0; 1] = Some 2%Z.
Proof. split; [|split]; vm_compute; reflexivity. Qed.

(** C6.  [from_iter] of no pattern is [Trie::default()], and on it every
    non-empty target over the alphabet gets 0 and the empty target 1. *)
Theorem empty_pattern_set {T} `{TrieElement T} N (w : list T) :
  in_alphabet N (map index w) ->
  from_iter N ([] : list (list T)) = Some (Trie_default N) /\
  from_iter_count N ([] : list (list T)) w = Some (match w with [] => 1%Z | _ :: _ => 0%Z end).
Proof.
  intro Hw. split; [reflexivity|].
  rewrite from_iter_count_lang.
  replace (from_iter N ([] : list (list T))) with (Some (Trie_default N)) by reflexivity.
  rewrite count_lang_correct by exact Hw.
  destruct w as [|a w']; [reflexivity|].
  rewrite partitions_nonempty by discriminate.
  rewrite (sum_range_ext_in _ _ _ (fun _ => 0%Z)), sum_range_zero; [reflexivity|].
  intros k _. destruct (in_patterns _ _) eqn:E; auto.
  apply in_patterns_spec in E. destruct E.
Qed.

Lemma empty_pattern_set_witness :
  from_iter Stripe_COUNT ([] : list (list Stripe)) = Some (Trie_default Stripe_COUNT) /\
  from_iter_count Stripe_COUNT ([] : list (list Stripe)) [Red; Blue] = Some 0%Z.
Proof. apply (empty_pattern_set Stripe_COUNT [Red; Blue]). repeat constructor. Defined.

(** C7.  Two pattern lists with the same members (one a permutation of the
    other, or with patterns repeated) build tries that give the same result,
    a count or a panic, on every target. *)
Theorem from_iter_count_same_set {T} `{TrieElement T} N (ps ps' : list (list T)) (w : list T) :
  (forall p, In p ps <-> In p ps') -> from_iter_count N ps w = from_iter_count N ps' w.
Proof.
  intro Hs. rewrite !from_iter_count_lang.
  destruct (from_iter N ps) as [t|] eqn:E1, (from_iter N ps') as [t'|] eqn:E2.
  - apply count_lang_ext. intros u _. pose proof (in_map_same ps ps' Hs) as Hm.
    split; [apply lang_isP_same | apply in_patterns_same]; exact Hm.
  - exfalso. apply (proj1 (from_iter_None N ps')) in E2. apply E2.
    apply (Forall_same _ ps); [exact Hs|]. eapply from_iter_in_alphabet; eauto.
  - exfalso. apply (proj1 (from_iter_None N ps)) in E1. apply E1.
    apply (Forall_same _ ps'); [intro x; symmetry; apply Hs|]. eapply from_iter_in_alphabet; eauto.
  - reflexivity.
Qed.

Lemma from_iter_count_same_set_witness :
  from_iter_count 2 [[0]; [1]; [0; 1]] [0; 1] = from_iter_count 2 [[0; 1]; [1]; [0]; [0; 1]] [0; 1].
Proof.
  apply (from_iter_count_same_set 2 [[0]; [1]; [0; 1]] [[0; 1]; [1]; [0]; [0; 1]] [0; 1]).
  intro p. simpl. tauto.
Defined.

(** C8 (amended).  A target equal to one of the patterns gets a count of at
    least 1, provided its number of arrangements is below 2^64 (above, the
    u64 count wraps). *)
Theorem count_pattern_at_least_one {T} `{TrieElement T} N (pats : list (list T)) t (w : list T) :
  from_iter N pats = Some t -> In w pats ->
  (arrangements (map (map index) pats) (map index w) < u64_modulus)%Z ->
  exists r, count_all_word_arrangements t w = Some r /\ (1 <= r)%Z.
Proof.
  intros Ht Hin Hlt. destruct w as [|a w'].
  - exists 1%Z. split; [apply count_empty_word | lia].
  - assert (Hw : in_alphabet N (map index (a :: w'))).
    { pose proof (from_iter_in_alphabet N pats t Ht) as Hall.
      rewrite Forall_forall in Hall. apply Hall, Hin. }
    rewrite (count_from_iter N pats t _ Ht), count_lang_correct by exact Hw.
    eexists; split; [reflexivity|].
    assert (H1 : (1 <= partitions (in_patterns (map (map index) pats)) (map index (a :: w')))%Z).
    { apply partitions_pattern; [discriminate|]. apply in_patterns_spec, in_map, Hin. }
    change (arrangements (map (map index) pats) (map index (a :: w')))
      with (partitions (in_patterns (map (map index) pats)) (map index (a :: w'))) in Hlt.
    rewrite Z.mod_small; lia.
Qed.

Lemma count_pattern_at_least_one_witness :
  exists t, from_iter 2 [[0]; [1]; [0; 1]] = Some t /\
  exists r, count_all_word_arrangements t [0; 1] = Some r /\ (1 <= r)%Z.
Proof.
  destruct (from_iter 2 [[0]; [1]; [0; 1]]) as [t|] eqn:E.
  - exists t. split; [reflexivity|].
    apply (count_pattern_at_least_one 2 [[0]; [1]; [0; 1]] t [0; 1] E).
    + simpl. tauto.
    + vm_compute. reflexivity.
  - vm_compute in E. discriminate E.
Defined.

(** C8 (counterexample).  The target 0^65 is one of the patterns 0, 00, ...,
    0^65, yet the count wraps to 0. *)
Lemma count_pattern_counterexample :
  In (repeat 0 65) (map (fun k => repeat 0 (S k)) (seq 0 65)) /\
  from_iter_count 1 (map (fun k => repeat 0 (S k)) (seq 0 65)) (repeat 0 65) = Some 0%Z.
Proof.
  split; [|vm_compute; reflexivity].
  apply in_map_iff. exists 64. split; [reflexivity|]. apply in_seq. lia.
Qed.

(** C9.  When every symbol of the patterns and of the target has an index
    below [N], building the trie and querying it do not panic: [from_iter]
    yields a well-formed arena (every child handle in bounds) and the query
    yields a count, which is 0 on a non-empty target with no arrangement. *)
Theorem trie_no_panic {T} `{TrieElement T} N (pats : list (list T)) (w : list T) :
  Forall (fun p => in_alphabet N (map index p)) pats -> in_alphabet N (map index w) ->
  exists t, from_iter N pats = Some t /\ wf_trie N t /\
    exists r, count_all_word_arrangements t w = Some r /\
      (w <> [] -> arrangements (map (map index) pats) (map index w) = 0%Z -> r = 0%Z).
Proof.
  intros Hp Hw. destruct (from_iter_rep N pats Hp) as (t & Ht & Hrep).
  exists t. split; [exact Ht|]. split; [exact (rep_wf _ _ _ _ Hrep)|].
  rewrite (count_from_iter N pats t w Ht), count_lang_correct by exact Hw.
  eexists; split; [reflexivity|]. intros Hne H0.
  destruct w as [|a w']; [congruence|].
  change (arrangements (map (map index) pats) (map index (a :: w')))
    with (partitions (in_patterns (map (map index) pats)) (map index (a :: w'))) in H0.
  rewrite H0. reflexivity.
Qed.

Lemma trie_no_panic_witness :
  exists t, from_iter Stripe_COUNT [[Red]; [White; Red]; [Black]; [Black; Red]] = Some t /\
    wf_trie Stripe_COUNT t /\
    exists r, count_all_word_arrangements t [Black; Green] = Some r /\
      ([Black; Green] <> [] ->
       arrangements (map (map index) [[Red]; [White; Red]; [Black]; [Black; Red]])
         (map index [Black; Green]) = 0%Z -> r = 0%Z).
Proof.
  apply (trie_no_panic Stripe_COUNT [[Red]; [White; Red]; [Black]; [Black; Red]] [Black; Green]);
    repeat constructor.
Defined.

(** C10.  The terminal flag of the root is never read: adding the empty
    pattern changes no result, and the empty target gets 1 on every trie. *)
Theorem empty_pattern_ignored {T} `{TrieElement T} N (ps : list (list T)) (w : list T) :
  from_iter_count N ([] :: ps) w = from_iter_count N ps w /\
  forall t : Trie, count_all_word_arrangements t ([] : list T) = Some 1%Z.
Proof.
  split; [|intro t; apply count_empty_word].
  rewrite !from_iter_count_lang.
  assert (Hf : from_iter N ([] :: ps) = None <-> from_iter N ps = None).
  { rewrite !from_iter_None. split; intros Hn Hall; apply Hn.
    - constructor; [constructor | exact Hall].
    - inversion Hall; auto. }
  destruct (from_iter N ([] :: ps)) as [t1|] eqn:E1, (from_iter N ps) as [t2|] eqn:E2.
  - cbn [map]. apply count_lang_ext. intros u Hu. split.
    + unfold lang_isP. cbn [existsb]. destruct u; [congruence | reflexivity].
    + apply eq_true_iff_eq. rewrite !in_patterns_spec. simpl.
      split; [intros [E|E]; [congruence | exact E] | auto].
  - discriminate (proj2 Hf eq_refl).
  - discriminate (proj1 Hf eq_refl).
  - reflexivity.
Qed.

(* ------------------------------------------------------------------ *)
(** * Proofs: positions and directions *)

Lemma usize_add_sub a n : (0 <= a < usize_modulus)%Z -> usize_add (usize_sub a n) n = a.
Proof.
  intro Ha. unfold usize_add, usize_sub.
  rewrite Z.add_mod_idemp_l by (unfold usize_modulus; lia).
  replace (a - n + n)%Z with a by lia. apply Z.mod_small. exact Ha.
Qed.

Lemma usize_sub_add a n : (0 <= a < usize_modulus)%Z -> usize_sub (usize_add a n) n = a.
Proof.
  intro Ha. unfold usize_add, usize_sub.
  rewrite Zminus_mod_idemp_l.
  replace (a + n - n)%Z with a by lia. apply Z.mod_small. exact Ha.
Qed.

Lemma position_eta p : {| row := row p; col := col p |} = p.
Proof. destruct p; reflexivity. Qed.

(** [turn_counter_clockwise] undoes [turn_clockwise] and the other way
    round; four clockwise turns give the direction back. *)
Theorem turn_clockwise_inverse d :
  Direction.turn_counter_clockwise (Direction.turn_clockwise d) = d /\
  Direction.turn_clockwise (Direction.turn_counter_clockwise d) = d /\
  Direction.turn_clockwise (Direction.turn_clockwise
    (Direction.turn_clockwise (Direction.turn_clockwise d))) = d.
Proof. destruct d; repeat split. Qed.

(** A quarter turn either way changes whether a direction is sideways. *)
Theorem turn_flips_sideways d :
  Direction.sideways (Direction.turn_clockwise d) = negb (Direction.sideways d) /\
  Direction.sideways (Direction.turn_counter_clockwise d) = negb (Direction.sideways d).
Proof. destruct d; split; reflexivity. Qed.


(** On a position within the usize range, moving [n] one way and then [n]
    the opposite way gives the position back. *)
Theorem position_moves_inverse p n :
  valid_position p ->
  Position.down (Position.up p n) n = p /\ Position.up (Position.down p n) n = p /\
  Position.right (Position.left p n) n = p /\ Position.left (Position.right p n) n = p.
Proof.
  intros [Hr Hc]. unfold Position.up, Position.down, Position.left, Position.right; simpl.
  rewrite usize_add_sub, usize_sub_add by assumption.
  rewrite usize_add_sub, usize_sub_add by assumption.
  rewrite !position_eta. auto.
Qed.

Lemma position_moves_inverse_witness :
  Position.down (Position.up {| row := 0; col := 5 |} 1) 1 = {| row := 0; col := 5 |} /\
  Position.up (Position.down {| row := 0; col := 5 |} 1) 1 = {| row := 0; col := 5 |} /\
  Position.right (Position.left {| row := 0; col := 5 |} 1) 1 = {| row := 0; col := 5 |} /\
  Position.left (Position.right {| row := 0; col := 5 |} 1) 1 = {| row := 0; col := 5 |}.
Proof.
  apply (position_moves_inverse {| row := 0; col := 5 |} 1).
  unfold valid_position, usize_modulus; simpl; lia.
Defined.

(** Going one step in a direction and then one step in the opposite
    direction (two clockwise turns) gives the position back. *)
Theorem go_and_back p d :
  valid_position p ->
  Position_go (Position_go p d) (Direction.turn_clockwise (Direction.turn_clockwise d)) = p.
Proof.
  intro Hp. destruct (position_moves_inverse p 1 Hp) as (H1 & H2 & H3 & H4).
  destruct d; simpl; assumption.
Qed.

Lemma go_and_back_witness :
  Position_go (Position_go {| row := 3; col := 0 |} Left)
    (Direction.turn_clockwise (Direction.turn_clockwise Left)) = {| row := 3; col := 0 |}.
Proof.
  apply (go_and_back {| row := 3; col := 0 |} Left).
  unfold valid_position, usize_modulus; simpl; lia.
Defined.

(** Away from the edges of the usize range, [surroundings] lists four
    distinct positions, and they are exactly the positions at Manhattan
    distance 1. *)
Theorem surroundings_spec p :
  (1 <= row p <= usize_modulus - 2)%Z -> (1 <= col p <= usize_modulus - 2)%Z ->
  NoDup (Position.surroundings p) /\
  forall q, In q (Position.surroundings p) <->
    (Z.abs (row q - row p) + Z.abs (col q - col p) = 1)%Z.
Proof.
  intros Hr Hc. destruct p as [r c]; cbn [row col] in *.
  unfold Position.surroundings, Position.up, Position.right, Position.down, Position.left,
    usize_add, usize_sub; cbn [row col].
  rewrite !Z.mod_small by lia.
  split.
  - repeat constructor; simpl;
      intros H; repeat destruct H as [H|H]; try injection H; try lia; contradiction.
  - intros [r' c']; simpl. split.
    + intros H. repeat destruct H as [H|H]; try (injection H as <- <-; lia); contradiction.
    + intro H.
      assert (E : (r' = r - 1 /\ c' = c)%Z \/ (r' = r /\ c' = c + 1)%Z \/
                  (r' = r + 1 /\ c' = c)%Z \/ (r' = r /\ c' = c - 1)%Z) by lia.
      repeat destruct E as [E|E]; destruct E as [-> ->]; simpl; auto 6.
Qed.

Lemma surroundings_spec_witness :
  NoDup (Position.surroundings {| row := 4; col := 7 |}) /\
  forall q, In q (Position.surroundings {| row := 4; col := 7 |}) <->
    (Z.abs (row q - 4) + Z.abs (col q - 7) = 1)%Z.
Proof.
  apply (surroundings_spec {| row := 4; col := 7 |}); unfold usize_modulus; simpl; lia.
Defined.

(* ------------------------------------------------------------------ *)
(** * Proofs: day 19 input parsing and design counts *)

Lemma strip_cr_id l : ~ In "013"%char l -> strip_cr l = l.
Proof.
  intro Hl. unfold strip_cr. destruct (rev l) as [|c r] eqn:E; auto.
  destruct (Ascii.eqb_spec c "013"%char) as [->|]; auto.
  exfalso. apply Hl, in_rev. rewrite E. left. reflexivity.
Qed.

Lemma lines_aux_app cur l s :
  ~ In "010"%char l ->
  lines_aux cur (l ++ "010"%char :: s) = strip_cr (cur ++ l) :: lines_aux [] s.
Proof.
  revert cur. induction l as [|a l IH]; intros cur Hl.
  - simpl. rewrite app_nil_r. reflexivity.
  - simpl. destruct (Ascii.eqb_spec a "010"%char) as [->|_].
    + exfalso. apply Hl. left. reflexivity.
    + rewrite IH by (intro H; apply Hl; right; exact H).
      rewrite <- app_assoc. reflexivity.
Qed.

Lemma stripe_byte_special s :
  stripe_byte s <> "010"%char /\ stripe_byte s <> "013"%char /\ stripe_byte s <> ","%char.
Proof. destruct s; repeat split; discriminate. Qed.

Lemma map_stripe_byte_not c d :
  (c = "010"%char \/ c = "013"%char \/ c = ","%char) -> ~ In c (map stripe_byte d).
Proof.
  intros Hc Hin. apply in_map_iff in Hin. destruct Hin as (s & <- & _).
  destruct (stripe_byte_special s) as (H1 & H2 & H3). tauto.
Qed.

Lemma lines_designs ds :
  lines_aux [] (concat (map (fun d => map stripe_byte d ++ ["010"%char]) ds)) =
  map (map stripe_byte) ds.
Proof.
  induction ds as [|d ds IH]; [reflexivity|].
  cbn [map concat]. rewrite <- app_assoc. cbn [app].
  rewrite lines_aux_app by (apply map_stripe_byte_not; auto).
  rewrite strip_cr_id by (apply map_stripe_byte_not; auto).
  rewrite IH. reflexivity.
Qed.

Lemma join_comma_space_Forall (P : ascii -> Prop) ws :
  P ","%char -> P " "%char -> Forall (Forall P) ws -> Forall P (join_comma_space ws).
Proof.
  intros Hc Hs. induction ws as [|w ws IH]; intro Hws; [constructor|].
  inversion Hws as [|? ? Hw Hrest]; subst.
  destruct ws as [|w' ws']; [exact Hw|].
  change (Forall P (w ++ [","%char; " "%char] ++ join_comma_space (w' :: ws'))).
  apply Forall_app. split; [exact Hw|]. repeat constructor; auto.
Qed.

Lemma split_comma_space_app cur w s :
  ~ In ","%char w -> split_comma_space_aux cur (w ++ s) = split_comma_space_aux (cur ++ w) s.
Proof.
  revert cur. induction w as [|a w IH]; intros cur Hw.
  - rewrite app_nil_r. reflexivity.
  - simpl. destruct (Ascii.eqb_spec a ","%char) as [->|_].
    + exfalso. apply Hw. left. reflexivity.
    + rewrite IH by (intro H; apply Hw; right; exact H).
      rewrite <- app_assoc. reflexivity.
Qed.

Lemma split_join_comma_space ws :
  ws <> [] -> Forall (fun w => ~ In ","%char w) ws ->
  split_comma_space (join_comma_space ws) = ws.
Proof.
  unfold split_comma_space.
  induction ws as [|w ws IH]; intros Hne Hws; [congruence|].
  inversion Hws as [|? ? Hw Hrest]; subst.
  destruct ws as [|w' ws'].
  - cbn [join_comma_space].
    replace (split_comma_space_aux [] w) with (split_comma_space_aux [] (w ++ []))
      by now rewrite app_nil_r.
    rewrite split_comma_space_app by exact Hw. reflexivity.
  - change (join_comma_space (w :: w' :: ws'))
      with (w ++ [","%char; " "%char] ++ join_comma_space (w' :: ws')).
    rewrite split_comma_space_app by exact Hw. cbn [app split_comma_space_aux Ascii.eqb].
    change (Ascii.eqb ","%char ","%char) with true.
    change (Ascii.eqb " "%char " "%char) with true. cbv iota.
    rewrite IH by (discriminate || exact Hrest). reflexivity.
Qed.

Lemma stripes_of_bytes_map d : stripes_of_bytes (map stripe_byte d) = Some d.
Proof.
  unfold stripes_of_bytes. induction d as [|s d IH]; [reflexivity|].
  simpl. rewrite IH. destruct s; reflexivity.
Qed.

Lemma collect_stripes_of_bytes ds :
  collect stripes_of_bytes (map (map stripe_byte) ds) = Some ds.
Proof.
  induction ds as [|d ds IH]; [reflexivity|].
  simpl. rewrite stripes_of_bytes_map, IH. reflexivity.
Qed.

Lemma stripe_in_alphabet (d : list Stripe) : in_alphabet Stripe_COUNT (map index d).
Proof.
  apply Forall_forall. intros c Hc. apply in_map_iff in Hc. destruct Hc as (s & <- & _).
  destruct s; unfold Stripe_COUNT; cbv; lia.
Qed.

Lemma stripe_from_iter_some (pats : list (list Stripe)) :
  exists t, from_iter Stripe_COUNT pats = Some t.
Proof.
  destruct (from_iter Stripe_COUNT pats) as [t|] eqn:E; [eauto|].
  apply from_iter_None in E. exfalso. apply E.
  apply Forall_forall. intros w _. apply stripe_in_alphabet.
Qed.

Lemma towel_file_lines pats second designs :
  ~ In "010"%char second ->
  lines (towel_file pats second designs) =
  join_comma_space (map (map stripe_byte) pats) :: strip_cr second ::
  map (map stripe_byte) designs.
Proof.
  intro Hs. unfold lines, towel_file.
  assert (Hj : Forall (fun c => c <> "010"%char /\ c <> "013"%char)
                 (join_comma_space (map (map stripe_byte) pats))).
  { apply join_comma_space_Forall; try (split; discriminate).
    apply Forall_forall. intros w Hw. apply in_map_iff in Hw. destruct Hw as (d & <- & _).
    apply Forall_forall. intros c Hc. split; intros ->; revert Hc;
      apply map_stripe_byte_not; auto. }
  rewrite Forall_forall in Hj. cbn [app].
  rewrite lines_aux_app by (intro H; apply (proj1 (Hj _ H)); reflexivity).
  rewrite lines_aux_app by exact Hs.
  rewrite lines_designs. cbn [app].
  rewrite strip_cr_id by (intro H; apply (proj2 (Hj _ H)); reflexivity).
  reflexivity.
Qed.

Lemma design_count_trie pats t d :
  from_iter Stripe_COUNT pats = Some t ->
  count_all_word_arrangements t d = Some (design_count pats d).
Proof.
  intro Ht. destruct d as [|s d']; [apply count_empty_word|].
  rewrite (count_from_iter Stripe_COUNT pats t _ Ht).
  rewrite count_lang_correct by apply stripe_in_alphabet. reflexivity.
Qed.

Lemma design_count_range pats d : (0 <= design_count pats d < u64_modulus)%Z.
Proof.
  unfold design_count, u64_modulus. destruct d; [lia|].
  apply Z.mod_pos_bound. lia.
Qed.

Lemma count_designs_loop_sum pats t ds acc :
  from_iter Stripe_COUNT pats = Some t ->
  count_designs_loop t false ds (acc mod u64_modulus)%Z =
  Some ((acc + fold_right Z.add 0 (map (design_count pats) ds)) mod u64_modulus)%Z.
Proof.
  intro Ht. revert acc. induction ds as [|d ds IH]; intro acc.
  - simpl. rewrite Z.add_0_r. reflexivity.
  - simpl. rewrite (design_count_trie pats t d Ht). simpl.
    unfold u64_add. rewrite Z.add_mod_idemp_l by (unfold u64_modulus; lia).
    rewrite IH. f_equal. f_equal. lia.
Qed.

Lemma count_designs_loop_unique pats t ds acc :
  from_iter Stripe_COUNT pats = Some t ->
  count_designs_loop t true ds (acc mod u64_modulus)%Z =
  Some ((acc + Z.of_nat (length (filter (fun d => (1 <=? design_count pats d)%Z) ds)))
        mod u64_modulus)%Z.
Proof.
  intro Ht. revert acc. induction ds as [|d ds IH]; intro acc.
  - simpl. rewrite Z.add_0_r. reflexivity.
  - simpl. rewrite (design_count_trie pats t d Ht). simpl.
    pose proof (design_count_range pats d) as Hr.
    destruct (1 <=? design_count pats d)%Z eqn:E.
    + unfold u64_add. rewrite Z.add_mod_idemp_l by (unfold u64_modulus; lia).
      rewrite IH. f_equal. f_equal. cbn [length]. lia.
    + apply Z.leb_gt in E. assert (H0 : design_count pats d = 0%Z) by lia.
      rewrite H0. unfold u64_add. rewrite Z.add_mod_idemp_l by (unfold u64_modulus; lia).
      rewrite Z.add_0_r, IH. reflexivity.
Qed.

Lemma towel_file_parse pats second designs :
  pats <> [] -> ~ In "010"%char second ->
  exists t, from_iter Stripe_COUNT pats = Some t /\
    TowelManager_new (towel_file pats second designs) = Some (mkTowelManager t designs).
Proof.
  intros Hp Hs. destruct (stripe_from_iter_some pats) as [t Ht].
  exists t. split; [exact Ht|].
  unfold TowelManager_new. rewrite towel_file_lines by exact Hs.
  rewrite split_join_comma_space.
  - rewrite collect_stripes_of_bytes, Ht. cbn [tl]. rewrite collect_stripes_of_bytes.
    reflexivity.
  - destruct pats; [congruence | discriminate].
  - apply Forall_forall. intros w Hw. apply in_map_iff in Hw. destruct Hw as (d & <- & _).
    apply map_stripe_byte_not. auto.
Qed.

(** [TowelManager::new] reads back what a well-formed input file holds: on
    the file made of the patterns joined by [", "], any second line without a
    line break, and one line per design, it builds the trie of the patterns
    (which does not panic) and keeps the designs in order. *)
Theorem towel_manager_new_roundtrip pats second designs :
  pats <> [] -> ~ In "010"%char second ->
  exists t, from_iter Stripe_COUNT pats = Some t /\
    TowelManager_new (towel_file pats second designs) = Some (mkTowelManager t designs).
Proof. apply towel_file_parse. Qed.

Lemma towel_manager_new_roundtrip_witness :
  exists t, from_iter Stripe_COUNT [[Red]; [White; Red]; [Black]] = Some t /\
    TowelManager_new (towel_file [[Red]; [White; Red]; [Black]] [] [[Black; Red]; []])
      = Some (mkTowelManager t [[Black; Red]; []]).
Proof.
  apply (towel_manager_new_roundtrip [[Red]; [White; Red]; [Black]] [] [[Black; Red]; []]).
  - discriminate.
  - simpl. tauto.
Defined.

(** Part 2 on a well-formed file prints the sum over the designs of their
    number of arrangements (1 for an empty design), each reduced modulo 2^64
    by the trie query and the sum reduced modulo 2^64 by the u64 additions. *)
Theorem day19_part2_sum pats second designs :
  pats <> [] -> ~ In "010"%char second ->
  day19_part2 (towel_file pats second designs) =
  Some (fold_right Z.add 0 (map (design_count pats) designs) mod u64_modulus)%Z.
Proof.
  intros Hp Hs. destruct (towel_file_parse pats second designs Hp Hs) as (t & Ht & Hn).
  unfold day19_part2. rewrite Hn. unfold count_all_possible_designs. cbn [patterns desired_designs].
  change 0%Z with (0 mod u64_modulus)%Z at 1.
  rewrite (count_designs_loop_sum pats t designs 0 Ht). reflexivity.
Qed.

Lemma day19_part2_sum_witness :
  day19_part2 (towel_file [[Red]; [White; Red]; [Black]] [] [[Black; Red]; [White; Red]]) =
  Some (fold_right Z.add 0 (map (design_count [[Red]; [White; Red]; [Black]])
          [[Black; Red]; [White; Red]]) mod u64_modulus)%Z.
Proof.
  apply (day19_part2_sum [[Red]; [White; Red]; [Black]] [] [[Black; Red]; [White; Red]]).
  - discriminate.
  - simpl. tauto.
Defined.

(** Part 1 on a well-formed file prints how many designs get a non-zero
    count from the trie (the empty design always does), modulo 2^64. *)
Theorem day19_part1_count pats second designs :
  pats <> [] -> ~ In "010"%char second ->
  day19_part1 (towel_file pats second designs) =
  Some (Z.of_nat (length (filter (fun d => negb (design_count pats d =? 0)%Z) designs))
        mod u64_modulus)%Z.
Proof.
  intros Hp Hs. destruct (towel_file_parse pats second designs Hp Hs) as (t & Ht & Hn).
  unfold day19_part1. rewrite Hn. unfold count_all_possible_designs. cbn [patterns desired_designs].
  change 0%Z with (0 mod u64_modulus)%Z at 1.
  rewrite (count_designs_loop_unique pats t designs 0 Ht). f_equal. f_equal.
  rewrite Z.add_0_l. f_equal. f_equal. apply filter_ext. intro d.
  pose proof (design_count_range pats d).
  destruct (1 <=? design_count pats d)%Z eqn:E1, (design_count pats d =? 0)%Z eqn:E2;
    try reflexivity; rewrite ?Z.leb_le, ?Z.leb_gt, ?Z.eqb_eq, ?Z.eqb_neq in *; lia.
Qed.

Lemma day19_part1_count_witness :
  day19_part1 (towel_file [[Red]; [White; Red]; [Black]] [] [[Black; Red]; [Green]]) =
  Some (Z.of_nat (length (filter (fun d => negb (design_count [[Red]; [White; Red]; [Black]] d =? 0)%Z)
          [[Black; Red]; [Green]])) mod u64_modulus)%Z.
Proof.
  apply (day19_part1_count [[Red]; [White; Red]; [Black]] [] [[Black; Red]; [Green]]).
  - discriminate.
  - simpl. tauto.
Defined.

(* ------------------------------------------------------------------ *)
(** * Proofs: day 14 robots and simulation *)

Lemma i32_wrap_id x : (- 2 ^ 31 <= x < 2 ^ 31)%Z -> i32_wrap x = x.
Proof. intro Hx. unfold i32_wrap. rewrite Z.mod_small by lia. lia. Qed.

(** For a positive divisor, [rem_euclid] is the mathematical modulo. *)
Lemma i32_rem_euclid_mod a b :
  (- 2 ^ 31 <= a < 2 ^ 31)%Z -> (0 < b < 2 ^ 31)%Z -> i32_rem_euclid a b = Some (a mod b)%Z.
Proof.
  intros Ha Hb. unfold i32_rem_euclid.
  replace ((b =? 0) || ((a =? - 2 ^ 31) && (b =? -1)))%Z with false
    by (symmetry; apply orb_false_iff; split; [apply Z.eqb_neq; lia|];
        apply andb_false_iff; right; apply Z.eqb_neq; lia).
  pose proof (Z.quot_rem' a b) as Hq. pose proof (Z.rem_bound_abs a b) as Hr.
  pose proof (Z.rem_nonneg a b) as Hn.
  rewrite (Z.abs_eq b) in Hr by lia. rewrite (Z.abs_eq b) by lia.
  rewrite (i32_wrap_id b) by lia.
  destruct (Z.rem a b <? 0)%Z eqn:E; f_equal.
  - apply Z.ltb_lt in E. rewrite i32_wrap_id by (specialize (Hr ltac:(lia)); lia).
    apply Z.mod_unique with (q := (Z.quot a b - 1)%Z); [|lia].
    specialize (Hr ltac:(lia)). lia.
  - apply Z.ltb_ge in E. apply Z.mod_unique with (q := Z.quot a b); [|lia].
    specialize (Hr ltac:(lia)). lia.
Qed.

Lemma robot_axis pos v g n :
  (0 < n < 2 ^ 31)%Z -> (0 <= g < 2 ^ 31)%Z -> (Z.abs v * g < 2 ^ 31)%Z -> (0 <= pos < n)%Z ->
  exists t, i32_rem_euclid (i32_mul v (usize_as_i32 g)) (usize_as_i32 n) = Some t /\
    usize_rem_z (usize_add pos (i32_as_usize t)) n = Some ((pos + v * g) mod n)%Z.
Proof.
  intros Hn Hg Hv Hp.
  assert (Hvg : Z.abs (v * g) = (Z.abs v * g)%Z) by (rewrite Z.abs_mul, (Z.abs_eq g); lia).
  unfold usize_as_i32, i32_mul. rewrite (i32_wrap_id g), (i32_wrap_id n) by lia.
  rewrite (i32_wrap_id (v * g)) by lia.
  rewrite i32_rem_euclid_mod by lia.
  eexists; split; [reflexivity|].
  pose proof (Z.mod_pos_bound (v * g) n ltac:(lia)) as Ht.
  unfold i32_as_usize, usize_add, usize_rem_z, usize_modulus.
  rewrite (Z.mod_small (v * g mod n)) by lia.
  rewrite (Z.mod_small (pos + v * g mod n)) by lia.
  replace (n =? 0)%Z with false by (symmetry; apply Z.eqb_neq; lia).
  rewrite Z.add_mod_idemp_r by lia. reflexivity.
Qed.

Lemma robot_run_closed r g H V :
  (0 < H < 2 ^ 31)%Z -> (0 < V < 2 ^ 31)%Z -> (0 <= g < 2 ^ 31)%Z ->
  (Z.abs (horizontal (velocity r)) * g < 2 ^ 31)%Z ->
  (Z.abs (vertical (velocity r)) * g < 2 ^ 31)%Z ->
  in_grid H V r ->
  Robot_run r g H V =
  Some {| position := {| row := (row (position r) + vertical (velocity r) * g) mod V;
                         col := (col (position r) + horizontal (velocity r) * g) mod H |}%Z;
          velocity := velocity r |}.
Proof.
  intros HH HV Hg Hh Hv [Hr Hc]. unfold Robot_run.
  destruct (robot_axis (row (position r)) (vertical (velocity r)) g V HV Hg Hv Hr) as (t1 & E1 & F1).
  destruct (robot_axis (col (position r)) (horizontal (velocity r)) g H HH Hg Hh Hc)
    as (t2 & E2 & F2).
  rewrite E1. cbn. rewrite F1. cbn. rewrite E2. cbn. rewrite F2. reflexivity.
Qed.

Lemma robot_run_compose r a b H V :
  (0 < H < 2 ^ 31)%Z -> (0 < V < 2 ^ 31)%Z -> (0 <= a)%Z -> (0 <= b)%Z -> (a + b < 2 ^ 31)%Z ->
  (Z.abs (horizontal (velocity r)) * (a + b) < 2 ^ 31)%Z ->
  (Z.abs (vertical (velocity r)) * (a + b) < 2 ^ 31)%Z ->
  in_grid H V r ->
  exists r', Robot_run r a H V = Some r' /\ Robot_run r' b H V = Robot_run r (a + b) H V.
Proof.
  intros HH HV Ha Hb Hab Hh Hv Hg.
  pose proof (Z.abs_nonneg (horizontal (velocity r))).
  pose proof (Z.abs_nonneg (vertical (velocity r))).
  rewrite (robot_run_closed r a H V) by (try nia; exact Hg).
  eexists; split; [reflexivity|].
  rewrite (robot_run_closed r (a + b) H V) by (try nia; exact Hg).
  rewrite robot_run_closed; cbn [position velocity row col]; try nia.
  - rewrite !Z.add_mod_idemp_l by lia. f_equal. f_equal. f_equal; f_equal; ring.
  - split; cbn [position row col]; apply Z.mod_pos_bound; lia.
Qed.

Lemma collect_compose {A B C} (f : A -> option B) (g : B -> option C) (h : A -> option C)
    (P : A -> Prop) (l : list A) :
  Forall P l -> (forall x, P x -> exists y, f x = Some y /\ g y = h x) ->
  exists l', collect f l = Some l' /\ collect g l' = collect h l.
Proof.
  intros Hl Hf. induction Hl as [|x l Hx Hl IH].
  - exists []. split; reflexivity.
  - destruct (Hf x Hx) as (y & Ey & Gy). destruct IH as (l' & E & G).
    exists (y :: l'). simpl. rewrite Ey, E, Gy, G. split; reflexivity.
Qed.

Lemma usize_mul4 x y z w :
  usize_mul (usize_mul (usize_mul (x mod usize_modulus) (y mod usize_modulus))
    (z mod usize_modulus)) (w mod usize_modulus) = (x * y * z * w mod usize_modulus)%Z.
Proof.
  assert (HM : usize_modulus <> 0%Z) by (unfold usize_modulus; lia).
  unfold usize_mul.
  rewrite <- (Z.mul_mod x y _ HM), <- (Z.mul_mod (x * y) z _ HM).
  rewrite <- (Z.mul_mod (x * y * z) w _ HM). reflexivity.
Qed.

Ltac quad_eq :=
  lazymatch goal with
  | |- pair _ _ = pair _ _ => f_equal; quad_eq
  | |- (_ mod _)%Z = (_ mod _)%Z => f_equal; lia
  | _ => lia
  end.

Lemma quadrant_loop_count mr mc rs a b c d :
  quadrant_loop mr mc rs (a mod usize_modulus, b mod usize_modulus,
                          c mod usize_modulus, d mod usize_modulus)%Z =
  ((a + Z.of_nat (length (filter (fun r => (row (position r) <? mr) && (col (position r) <? mc)) rs)))
     mod usize_modulus,
   (b + Z.of_nat (length (filter (fun r => (row (position r) <? mr) && (mc <? col (position r))) rs)))
     mod usize_modulus,
   (c + Z.of_nat (length (filter (fun r => (mr <? row (position r)) && (col (position r) <? mc)) rs)))
     mod usize_modulus,
   (d + Z.of_nat (length (filter (fun r => (mr <? row (position r)) && (mc <? col (position r))) rs)))
     mod usize_modulus)%Z.
Proof.
  revert a b c d. induction rs as [|r rs IH]; intros a b c d.
  - simpl. rewrite !Z.add_0_r. reflexivity.
  - cbn [quadrant_loop filter].
    destruct (row (position r) <? mr)%Z eqn:R1, (col (position r) <? mc)%Z eqn:C1,
      (mc <? col (position r))%Z eqn:C2, (mr <? row (position r))%Z eqn:R2;
      cbn [andb length]; unfold usize_add.
  all: rewrite ?Z.add_mod_idemp_l by (unfold usize_modulus; lia).
  all: rewrite IH.
  all: try (exfalso; rewrite ?Z.ltb_lt, ?Z.ltb_ge in *; lia).
  all: quad_eq.
Qed.

Lemma simulation_run_generation s g s' :
  Simulation_run s g = Some s' -> generation s' = usize_add (generation s) g.
Proof.
  unfold Simulation_run. destruct (collect _ _); [|discriminate].
  intro E. injection E as <-. reflexivity.
Qed.

(** A robot on the grid, moved by [Robot::run] for [g] generations while the
    products velocity * [g] fit in an i32, ends at its start shifted by
    velocity * [g] and wrapped around the grid (row modulo the number of rows,
    column modulo the number of columns), and keeps its velocity. *)
Theorem robot_run_wraps r g H V :
  (0 < H < 2 ^ 31)%Z -> (0 < V < 2 ^ 31)%Z -> (0 <= g < 2 ^ 31)%Z ->
  (Z.abs (horizontal (velocity r)) * g < 2 ^ 31)%Z ->
  (Z.abs (vertical (velocity r)) * g < 2 ^ 31)%Z ->
  in_grid H V r ->
  Robot_run r g H V =
  Some {| position := {| row := (row (position r) + vertical (velocity r) * g) mod V;
                         col := (col (position r) + horizontal (velocity r) * g) mod H |}%Z;
          velocity := velocity r |}.
Proof. apply robot_run_closed. Qed.

Lemma robot_run_wraps_witness :
  Robot_run {| position := {| row := 4; col := 2 |}; velocity := {| horizontal := 2; vertical := -3 |} |}
    5 11 7 =
  Some {| position := {| row := (4 + -3 * 5) mod 7; col := (2 + 2 * 5) mod 11 |}%Z;
          velocity := {| horizontal := 2; vertical := -3 |} |}.
Proof.
  apply (robot_run_wraps
    {| position := {| row := 4; col := 2 |}; velocity := {| horizontal := 2; vertical := -3 |} |}
    5 11 7); unfold in_grid; simpl; lia.
Defined.

(** Running a simulation for [a] generations and then for [b] more gives the
    same simulation (robots and generation counter) as running it for
    [a + b] generations at once, when the robots are on the grid and
    velocity * ([a] + [b]) fits in an i32. *)
Theorem simulation_run_compose s a b :
  (0 < num_horizontal_tiles s < 2 ^ 31)%Z -> (0 < num_vertical_tiles s < 2 ^ 31)%Z ->
  (0 <= a)%Z -> (0 <= b)%Z -> (a + b < 2 ^ 31)%Z ->
  Forall (fun r => in_grid (num_horizontal_tiles s) (num_vertical_tiles s) r /\
                   (Z.abs (horizontal (velocity r)) * (a + b) < 2 ^ 31)%Z /\
                   (Z.abs (vertical (velocity r)) * (a + b) < 2 ^ 31)%Z) (robots s) ->
  exists s1, Simulation_run s a = Some s1 /\ Simulation_run s1 b = Simulation_run s (a + b).
Proof.
  intros HH HV Ha Hb Hab Hrs.
  destruct (collect_compose
    (fun r => Robot_run r a (num_horizontal_tiles s) (num_vertical_tiles s))
    (fun r => Robot_run r b (num_horizontal_tiles s) (num_vertical_tiles s))
    (fun r => Robot_run r (a + b) (num_horizontal_tiles s) (num_vertical_tiles s))
    _ (robots s) Hrs) as (l' & E & G).
  { intros r (Hg & Hh & Hv). apply robot_run_compose; assumption. }
  exists (mkSimulation l' (num_horizontal_tiles s) (num_vertical_tiles s)
            (usize_add (generation s) a)).
  split; [unfold Simulation_run; rewrite E; reflexivity|].
  unfold Simulation_run. cbn [robots num_horizontal_tiles num_vertical_tiles generation].
  rewrite G. clear E G.
  destruct (collect (fun r => Robot_run r (a + b) (num_horizontal_tiles s) (num_vertical_tiles s))
              (robots s)); [|reflexivity].
  unfold usize_add. rewrite Z.add_mod_idemp_l by (unfold usize_modulus; lia).
  rewrite Z.add_assoc. reflexivity.
Qed.

Lemma simulation_run_compose_witness :
  exists s1,
    Simulation_run (mkSimulation
      [{| position := {| row := 4; col := 2 |}; velocity := {| horizontal := 2; vertical := -3 |} |};
       {| position := {| row := 0; col := 0 |}; velocity := {| horizontal := 1; vertical := 3 |} |}]
      11 7 0) 3 = Some s1 /\
    Simulation_run s1 2 =
    Simulation_run (mkSimulation
      [{| position := {| row := 4; col := 2 |}; velocity := {| horizontal := 2; vertical := -3 |} |};
       {| position := {| row := 0; col := 0 |}; velocity := {| horizontal := 1; vertical := 3 |} |}]
      11 7 0) (3 + 2).
Proof.
  apply simulation_run_compose; simpl; try lia.
  repeat constructor; simpl; lia.
Defined.

(** [calculate_safety_factor] counts each robot in at most one quadrant:
    the result is the product, modulo 2^64, of the numbers of robots
    strictly above and left of, above and right of, below and left of, and
    below and right of the median row and column; robots on a median are
    not counted. *)
Theorem safety_factor_quadrants s :
  calculate_safety_factor s =
  (let mr := (num_vertical_tiles s / 2)%Z in
   let mc := (num_horizontal_tiles s / 2)%Z in
   let n p := Z.of_nat (length (filter p (robots s))) in
   (n (fun r => (row (position r) <? mr) && (col (position r) <? mc)) *
    n (fun r => (row (position r) <? mr) && (mc <? col (position r))) *
    n (fun r => (mr <? row (position r)) && (col (position r) <? mc)) *
    n (fun r => (mr <? row (position r)) && (mc <? col (position r)))) mod usize_modulus)%Z.
Proof.
  unfold calculate_safety_factor.
  change (0, 0, 0, 0)%Z with
    (0 mod usize_modulus, 0 mod usize_modulus, 0 mod usize_modulus, 0 mod usize_modulus)%Z.
  rewrite quadrant_loop_count. cbv zeta. rewrite !Z.add_0_l. apply usize_mul4.
Qed.

(* ------------------------------------------------------------------ *)
(** * Proofs: day 14 part 2 search *)

Lemma pair_ltb_spec a b :
  pair_ltb a b = true <-> (fst a < fst b \/ (fst a = fst b /\ snd a < snd b))%Z.
Proof.
  unfold pair_ltb. rewrite orb_true_iff, andb_true_iff, Z.ltb_lt, Z.eqb_eq, Z.ltb_lt.
  reflexivity.
Qed.

Lemma pair_ltb_false a b :
  pair_ltb a b = false <-> ~ (fst a < fst b \/ (fst a = fst b /\ snd a < snd b))%Z.
Proof. rewrite <- pair_ltb_spec. symmetry. apply not_true_iff_false. Qed.

Lemma iter_min_aux_spec m l :
  In (iter_min_aux m l) (m :: l) /\
  forall x, In x (m :: l) -> pair_ltb x (iter_min_aux m l) = false.
Proof.
  revert m. induction l as [|x xs IH]; intro m.
  - split; [left; reflexivity|]. intros x [<-|[]]. cbn [iter_min_aux].
    apply pair_ltb_false. lia.
  - cbn [iter_min_aux].
    destruct (IH (if pair_ltb x m then x else m)) as (Hin & Hmin).
    set (r := iter_min_aux (if pair_ltb x m then x else m) xs) in *.
    assert (Hc : pair_ltb m (if pair_ltb x m then x else m) = false /\
                 pair_ltb x (if pair_ltb x m then x else m) = false).
    { destruct (pair_ltb x m) eqn:E; rewrite ?pair_ltb_false; rewrite ?pair_ltb_false, ?pair_ltb_spec in E; lia. }
    assert (Hcr : pair_ltb (if pair_ltb x m then x else m) r = false) by (apply Hmin; left; auto).
    split.
    + destruct Hin as [Hin|Hin]; [destruct (pair_ltb x m); rewrite <- Hin; simpl; auto|].
      right; right. exact Hin.
    + intros y Hy. destruct Hc as (Hc1 & Hc2).
      rewrite pair_ltb_false in Hc1, Hc2, Hcr |- *.
      destruct Hy as [<-|[<-|Hy]]; [lia | lia|].
      apply pair_ltb_false. apply Hmin. right. exact Hy.
Qed.

Lemma iter_min_spec l m :
  iter_min l = Some m -> In m l /\ forall x, In x l -> pair_ltb x m = false.
Proof.
  destruct l as [|x xs]; [discriminate|]. intro E. injection E as <-.
  apply iter_min_aux_spec.
Qed.

Lemma round_robin_in {A} (p : nat * A -> bool) (l : list A) i y :
  In y (map snd (filter p (combine (seq i (length l)) l))) -> In y l.
Proof.
  intro H. apply in_map_iff in H. destruct H as ([j x] & <- & Hx).
  apply filter_In in Hx. destruct Hx as (Hx & _). apply in_combine_r in Hx. exact Hx.
Qed.

Lemma round_robin_sorted {A} (R : A -> A -> Prop) (p : nat * A -> bool) (l : list A) i :
  StronglySorted R l -> StronglySorted R (map snd (filter p (combine (seq i (length l)) l))).
Proof.
  revert i. induction l as [|x l IH]; intros i Hs; [constructor|].
  inversion Hs as [|? ? Hs' Hx]; subst. cbn [length seq combine filter].
  destruct (p (i, x)); cbn [map snd]; [|apply IH; exact Hs'].
  constructor; [apply IH; exact Hs'|].
  apply Forall_forall. intros y Hy. apply round_robin_in in Hy.
  rewrite Forall_forall in Hx. apply Hx, Hy.
Qed.

Section Part2.
Variable s : Simulation.
Variable G : Z -> Prop.
Variable sf : Z -> Z.
Hypothesis Hrun : forall g, G g -> exists s', Simulation_run s g = Some s' /\
  calculate_safety_factor s' = sf g /\ (sf g < usize_MAX)%Z /\ generation s' = g.

Lemma part2_shard_loop_spec gs m ms :
  StronglySorted Z.lt gs -> Forall G gs ->
  exists m' ms', part2_shard_loop s gs m ms = Some (m', ms') /\
   ((m' = m /\ ms' = ms /\ Forall (fun g => m <= sf g)%Z gs) \/
    (exists g s', In g gs /\ ms' = Some s' /\ generation s' = g /\ m' = sf g /\ (sf g < m)%Z /\
       Forall (fun g' => sf g < sf g' \/ (sf g = sf g' /\ g <= g'))%Z gs)).
Proof.
  revert m ms. induction gs as [|g0 gs IH]; intros m ms Hs Hg.
  - exists m, ms. split; [reflexivity|]. left. auto.
  - inversion Hs as [|? ? Hs' Hlt]; subst. inversion Hg as [|? ? Hg0 Hgs]; subst.
    destruct (Hrun g0 Hg0) as (s0 & Er & Esf & Hmax & Egen).
    cbn [part2_shard_loop]. rewrite Er, Esf.
    destruct (sf g0 <? m)%Z eqn:Ec.
    + apply Z.ltb_lt in Ec.
      destruct (IH (sf g0) (Some s0) Hs' Hgs)
        as (m' & ms' & E & [(-> & -> & Hall) | (g & s' & Hin & -> & Hgen & -> & Hlt' & Hall)]).
      * exists (sf g0), (Some s0). split; [exact E|]. right. exists g0, s0.
        split; [left; reflexivity|]. split; [reflexivity|]. split; [exact Egen|].
        split; [reflexivity|]. split; [exact Ec|].
        constructor; [right; lia|].
        apply Forall_forall. intros g' Hg'. rewrite Forall_forall in Hall, Hlt.
        specialize (Hall g' Hg'). specialize (Hlt g' Hg'). lia.
      * exists (sf g), (Some s'). split; [exact E|]. right. exists g, s'.
        split; [right; exact Hin|]. split; [reflexivity|]. split; [exact Hgen|].
        split; [reflexivity|]. split; [lia|]. constructor; [left; lia | exact Hall].
    + apply Z.ltb_ge in Ec.
      destruct (IH m ms Hs' Hgs)
        as (m' & ms' & E & [(-> & -> & Hall) | (g & s' & Hin & -> & Hgen & -> & Hlt' & Hall)]).
      * exists m, ms. split; [exact E|]. left. repeat split. constructor; auto.
      * exists (sf g), (Some s'). split; [exact E|]. right. exists g, s'.
        split; [right; exact Hin|]. split; [reflexivity|]. split; [exact Hgen|].
        split; [reflexivity|]. split; [lia|]. constructor; [left; lia | exact Hall].
Qed.

Lemma part2_shard_spec gs :
  gs <> [] -> StronglySorted Z.lt gs -> Forall G gs ->
  exists g, In g gs /\ part2_shard gs s = Some (sf g, g) /\
    Forall (fun g' => sf g < sf g' \/ (sf g = sf g' /\ g <= g'))%Z gs.
Proof.
  intros Hne Hs Hg.
  destruct (part2_shard_loop_spec gs usize_MAX None Hs Hg)
    as (m' & ms' & E & [(-> & -> & Hall) | (g & s' & Hin & -> & Hgen & -> & Hlt' & Hall)]).
  - exfalso. destruct gs as [|g0 gs]; [congruence|].
    inversion Hg as [|? ? Hg0 _]; subst. inversion Hall as [|? ? H0 _]; subst.
    destruct (Hrun g0 Hg0) as (s0 & _ & _ & Hmax & _). lia.
  - exists g. split; [exact Hin|]. split; [|exact Hall].
    unfold part2_shard. rewrite E. cbn. rewrite Hgen. reflexivity.
Qed.

End Part2.

(** The part 2 search of day 14: for generations in increasing order, each
    of which the simulation (at generation 0) reaches with a safety factor
    below [usize::MAX], [shard_and_solve_concurrently] yields outputs in some
    order, and whatever that order, their [min()] is the pair (safety factor,
    generation) of a searched generation with the least safety factor and,
    among those, the least generation.  A shard left empty (more threads
    than generations) panics in its worker and sends nothing. *)
Theorem part2_search_min P gens s :
  0 < P -> gens <> [] -> StronglySorted Z.lt gens ->
  Forall (fun g => 0 <= g < usize_modulus)%Z gens -> generation s = 0%Z ->
  (forall g, In g gens -> exists s', Simulation_run s g = Some s' /\
     (calculate_safety_factor s' < usize_MAX)%Z) ->
  (exists received, part2_search P gens s received) /\
  forall received, part2_search P gens s received ->
    exists g s', In g gens /\ Simulation_run s g = Some s' /\
      iter_min received = Some (calculate_safety_factor s', g) /\
      forall g' s'', In g' gens -> Simulation_run s g' = Some s'' ->
        (calculate_safety_factor s' < calculate_safety_factor s'' \/
         (calculate_safety_factor s' = calculate_safety_factor s'' /\ g <= g'))%Z.
Proof.
  intros HP Hne Hsorted Hrange Hgen0 Hrun.
  set (sf := fun g => match Simulation_run s g with
                      | Some s' => calculate_safety_factor s' | None => 0%Z end).
  assert (Hrun' : forall g, In g gens -> exists s', Simulation_run s g = Some s' /\
            calculate_safety_factor s' = sf g /\ (sf g < usize_MAX)%Z /\ generation s' = g).
  { intros g Hg. destruct (Hrun g Hg) as (s' & Er & Hlt). exists s'.
    unfold sf. rewrite Er. split; [reflexivity|]. split; [reflexivity|]. split; [exact Hlt|].
    rewrite (simulation_run_generation s g s' Er), Hgen0.
    rewrite Forall_forall in Hrange. specialize (Hrange g Hg).
    unfold usize_add. rewrite Z.add_0_l. apply Z.mod_small. exact Hrange. }
  destruct (make_shards_spec P gens HP) as (shards & Ems & Hlen & Hnth & Hperm).
  set (F := fun shard => match part2_shard shard s with Some o => [o] | None => [] end).
  assert (Hsh : forall sh, In sh shards ->
            StronglySorted Z.lt sh /\ Forall (fun g => In g gens) sh).
  { intros sh Hin. split.
    - destruct (In_nth shards sh [] Hin) as (k & Hk & Ek). rewrite <- Ek, Hnth by lia.
      apply round_robin_sorted. exact Hsorted.
    - apply Forall_forall. intros g Hg. apply (Permutation_in _ Hperm).
      apply in_concat. exists sh. auto. }
  assert (Hcover : forall g, In g gens -> exists sh, In sh shards /\ In g sh).
  { intros g Hg. apply (Permutation_in _ (Permutation_sym Hperm)) in Hg.
    apply in_concat in Hg. destruct Hg as (sh & ? & ?). eauto. }
  assert (Hout : forall o, In o (flat_map F shards) ->
            exists sh, In sh shards /\ part2_shard sh s = Some o).
  { intros o Ho. apply in_flat_map in Ho. destruct Ho as (sh & Hin & Ho).
    unfold F in Ho. destruct (part2_shard sh s) as [o'|] eqn:E; [|destruct Ho].
    destruct Ho as [<-|[]]. eauto. }
  assert (Hmin : forall sh, In sh shards -> sh <> [] ->
            exists g, In g sh /\ In (sf g, g) (flat_map F shards) /\
              Forall (fun g' => sf g < sf g' \/ (sf g = sf g' /\ g <= g'))%Z sh).
  { intros sh Hin Hshne. destruct (Hsh sh Hin) as (Hs & Hg).
    destruct (part2_shard_spec s (fun g => In g gens) sf Hrun' sh Hshne Hs Hg)
      as (g & Hgin & E & Hall).
    exists g. split; [exact Hgin|]. split; [|exact Hall].
    apply in_flat_map. exists sh. split; [exact Hin|]. unfold F. rewrite E. left. reflexivity. }
  split.
  - exists (flat_map F shards). exists shards. split; [exact Ems | apply Permutation_refl].
  - intros received (shards' & Ems' & Hp'). rewrite Ems in Ems'. injection Ems' as <-.
    fold F in Hp'.
    destruct gens as [|g0 gs]; [congruence|].
    destruct (Hcover g0 (or_introl eq_refl)) as (sh0 & Hsh0 & Hg0).
    destruct (Hmin sh0 Hsh0 ltac:(destruct sh0; [destruct Hg0|discriminate]))
      as (g1 & _ & Ho1 & _).
    destruct (iter_min received) as [m|] eqn:Em.
    2:{ exfalso. apply (Permutation_in _ Hp') in Ho1. destruct received; [destruct Ho1|discriminate]. }
    destruct (iter_min_spec received m Em) as (Hmr & Hml).
    apply (Permutation_in _ (Permutation_sym Hp')) in Hmr.
    destruct (Hout m Hmr) as (sh & Hsh1 & Esh).
    destruct sh as [|a sh'] eqn:Esh'; [discriminate|]. rewrite <- Esh' in *.
    destruct (Hsh sh Hsh1) as (Hs & Hgs).
    destruct (part2_shard_spec s (fun g => In g (g0 :: gs)) sf Hrun' sh
                ltac:(rewrite Esh'; discriminate) Hs Hgs) as (g & Hgin & E & _).
    rewrite Esh in E. injection E as ->.
    rewrite Forall_forall in Hgs.
    destruct (Hrun' g (Hgs g Hgin)) as (s' & Er & Esf & _ & _).
    exists g, s'. split; [exact (Hgs g Hgin)|]. split; [exact Er|].
    rewrite Esf. split; [reflexivity|].
    intros g' s'' Hg' Er'.
    assert (Esf' : calculate_safety_factor s'' = sf g') by (unfold sf; rewrite Er'; reflexivity).
    rewrite Esf'.
    destruct (Hcover g' Hg') as (sh2 & Hsh2 & Hg'2).
    destruct (Hmin sh2 Hsh2 ltac:(destruct sh2; [destruct Hg'2|discriminate]))
      as (g2 & _ & Ho2 & Hall2).
    rewrite Forall_forall in Hall2. specialize (Hall2 g' Hg'2).
    apply (Permutation_in _ Hp') in Ho2. specialize (Hml _ Ho2).
    rewrite pair_ltb_false in Hml. cbn [fst snd] in Hml. lia.
Qed.

Lemma part2_search_min_witness :
  (exists received, part2_search 2 [1; 2; 3]%Z
     (mkSimulation
       [{| position := {| row := 4; col := 2 |}; velocity := {| horizontal := 2; vertical := -3 |} |};
        {| position := {| row := 0; col := 0 |}; velocity := {| horizontal := 1; vertical := 3 |} |}]
       11 7 0) received) /\
  forall received, part2_search 2 [1; 2; 3]%Z
     (mkSimulation
       [{| position := {| row := 4; col := 2 |}; velocity := {| horizontal := 2; vertical := -3 |} |};
        {| position := {| row := 0; col := 0 |}; velocity := {| horizontal := 1; vertical := 3 |} |}]
       11 7 0) received ->
    exists g s', In g [1; 2; 3]%Z /\
      Simulation_run (mkSimulation
       [{| position := {| row := 4; col := 2 |}; velocity := {| horizontal := 2; vertical := -3 |} |};
        {| position := {| row := 0; col := 0 |}; velocity := {| horizontal := 1; vertical := 3 |} |}]
       11 7 0) g = Some s' /\
      iter_min received = Some (calculate_safety_factor s', g) /\
      forall g' s'', In g' [1; 2; 3]%Z ->
        Simulation_run (mkSimulation
         [{| position := {| row := 4; col := 2 |}; velocity := {| horizontal := 2; vertical := -3 |} |};
          {| position := {| row := 0; col := 0 |}; velocity := {| horizontal := 1; vertical := 3 |} |}]
         11 7 0) g' = Some s'' ->
        (calculate_safety_factor s' < calculate_safety_factor s'' \/
         (calculate_safety_factor s' = calculate_safety_factor s'' /\ g <= g'))%Z.
Proof.
  apply part2_search_min.
  - lia.
  - discriminate.
  - repeat constructor; lia.
  - repeat constructor; unfold usize_modulus; lia.
  - reflexivity.
  - intros g Hg. simpl in Hg.
    repeat destruct Hg as [<-|Hg]; try contradiction;
      eexists; (split; [reflexivity | vm_compute; reflexivity]).
Defined.

(* ------------------------------------------------------------------ *)
(** * Proofs: day 19 malformed input *)

Lemma collect_None {A B} (f : A -> option B) l x :
  In x l -> f x = None -> collect f l = None.
Proof.
  intros Hin Hx. induction l as [|y l IH]; [destruct Hin|].
  simpl. destruct Hin as [->|Hin]; [rewrite Hx; reflexivity|].
  destruct (f y); [rewrite IH by exact Hin|]; reflexivity.
Qed.

Lemma stripes_of_bytes_None l c :
  In c l -> stripe_from_u8 c = None -> stripes_of_bytes l = None.
Proof.
  unfold stripes_of_bytes. intros Hin Hc. induction l as [|a l IH]; [destruct Hin|].
  simpl. destruct Hin as [->|Hin]; [rewrite Hc; reflexivity|].
  destruct (stripe_from_u8 a); [rewrite IH by exact Hin|]; reflexivity.
Qed.

(** [TowelManager::new] panics ([Stripe::from] reaches [unreachable!()]) when
    a pattern of the first line, or a line from the third on, holds a byte
    other than w, u, b, r and g. *)
Theorem towel_manager_new_bad_byte file line c :
  In line (split_comma_space (hd [] (lines file))) \/ In line (tl (tl (lines file))) ->
  In c line -> stripe_from_u8 c = None ->
  TowelManager_new file = None.
Proof.
  intros Hline Hc Hbad. unfold TowelManager_new.
  destruct (lines file) as [|first rest]; cbn [hd tl] in Hline.
  - reflexivity.
  - destruct Hline as [Hline|Hline].
    + rewrite (collect_None stripes_of_bytes _ line Hline (stripes_of_bytes_None line c Hc Hbad)).
      reflexivity.
    + destruct (collect stripes_of_bytes (split_comma_space first)); [|reflexivity].
      destruct (from_iter Stripe_COUNT l); [|reflexivity].
      rewrite (collect_None stripes_of_bytes _ line Hline (stripes_of_bytes_None line c Hc Hbad)).
      reflexivity.
Qed.

Lemma towel_manager_new_bad_byte_witness :
  TowelManager_new (list_ascii_of_string "r, wr

bx
") = None.
Proof.
  apply (towel_manager_new_bad_byte _ (list_ascii_of_string "bx") "x"%char).
  - right. vm_compute. left. reflexivity.
  - simpl. auto.
  - reflexivity.
Defined.
